(** * kube-exec: the helper layer of [kube_util.go]

    A shallow embedding of the functions of [kube_util.go] and the
    properties of them that the description of the package relies on.

    The Kubernetes client library is outside the package.  Its answers are
    taken from a [Cluster] record (one field per library entry point that
    the code calls), and every request the code sends is appended to a log
    kept in the program state, so that statements about what is sent, and
    in which order, are statements about that log.  The pointers that the
    functions receive ([*v1.Pod], [*v1.PodAttachOptions]) are taken to be
    non-nil. *)

From Stdlib Require Import List String Bool Arith Lia.
Import ListNotations.
Local Open Scope string_scope.

(** ** Go values *)

(** Go's [error] values are only ever formatted with [%v] / [%s] here, so an
    error is the message it prints. *)
Definition error := string.

(** A call that returns [(T, error)] with exactly one of the two set. *)
Inductive result (A : Type) : Type :=
| Ok (a : A)
| Err (e : error).
Arguments Ok {A} a.
Arguments Err {A} e.

(** Run-time panics that the code of this file can raise. *)
Inductive panic : Type :=
| IndexOutOfRange (index len : nat)
| CloseOfClosedChannel.

(** How a call ends: it returns, it panics, the process exits through
    [log.Fatalf], or the call is still blocked when the notifications that
    were supplied have all been consumed. *)
Inductive outcome (A : Type) : Type :=
| Returned (a : A)
| Panicked (p : panic)
| Exited (msg : string)
| Blocked.
Arguments Returned {A} a.
Arguments Panicked {A} p.
Arguments Exited {A} msg.
Arguments Blocked {A}.

(** ** The Kubernetes API types the code touches *)

Module v1.

Record LocalObjectReference := { LocalObjectReference_Name : string }.

Record SecretKeySelector := {
  SecretKeySelector_LocalObjectReference : LocalObjectReference;
  SecretKeySelector_Key : string;
  SecretKeySelector_Optional : option bool
}.

(** Of the sources of an environment variable only the secret reference
    is used; the other three pointers stay nil and are kept as flags. *)
Record EnvVarSource := {
  FieldRef : option unit;
  ResourceFieldRef : option unit;
  ConfigMapKeyRef : option unit;
  SecretKeyRef : option SecretKeySelector
}.

Record EnvVar := {
  EnvVar_Name : string;
  EnvVar_Value : string;
  ValueFrom : option EnvVarSource
}.

Record SecurityContext := { Privileged : option bool }.

Inductive PullPolicy := PullAlways | PullNever | PullIfNotPresent | PullUnset.

Record VolumeMount := { VolumeMount_Name : string; MountPath : string }.
Record Volume := { Volume_Name : string }.

Record Container := {
  Container_Name : string;
  Image : string;
  Command : list string;
  Args : list string;
  Env : list EnvVar;
  VolumeMounts : list VolumeMount;
  ImagePullPolicy : PullPolicy;
  Container_SecurityContext : option SecurityContext;
  Container_Stdin : bool;
  Container_TTY : bool
}.

Inductive RestartPolicy :=
| RestartPolicyAlways | RestartPolicyOnFailure | RestartPolicyNever
| RestartPolicyUnset.

Record PodSpec := {
  Volumes : list Volume;
  InitContainers : list Container;
  Containers : list Container;
  PodSpec_RestartPolicy : RestartPolicy;
  ImagePullSecrets : list LocalObjectReference
}.

Inductive PodPhase :=
| PodPending | PodRunning | PodSucceeded | PodFailed | PodUnknown
| PodPhaseUnset.

Record PodStatus := { Phase : PodPhase }.

Record ObjectMeta := { Name : string; Namespace : string }.

Record Pod := {
  Pod_ObjectMeta : ObjectMeta;
  Spec : PodSpec;
  Status : PodStatus
}.

Record PodAttachOptions := {
  Kind : string;
  APIVersion : string;
  Stdin : bool;
  Stdout : bool;
  Stderr : bool;
  TTY : bool;
  Container_ : string
}.

Definition PodPhase_eqb (a b : PodPhase) : bool :=
  match a, b with
  | PodPending, PodPending | PodRunning, PodRunning
  | PodSucceeded, PodSucceeded | PodFailed, PodFailed
  | PodUnknown, PodUnknown | PodPhaseUnset, PodPhaseUnset => true
  | _, _ => false
  end.

End v1.
Import v1.

(** [pod.Name] and [pod.Namespace] go through the embedded [ObjectMeta]. *)
Definition Pod_Name (pod : Pod) : string := Name (Pod_ObjectMeta pod).
Definition Pod_Namespace (pod : Pod) : string := Namespace (Pod_ObjectMeta pod).

(** ** Container lookup *)

(** A [*v1.Container] that points into one of the two slices of the pod's
    spec: which slice, at which index, and the element there.  The pod is
    not written to while such a pointer is in use. *)
Inductive ContainerRef : Type :=
| InContainers (i : nat) (c : Container)
| InInitContainers (i : nat) (c : Container).

Definition target (r : ContainerRef) : Container :=
  match r with InContainers _ c | InInitContainers _ c => c end.

(** What the pointer reads when it is followed in [pod]. *)
Definition deref (pod : Pod) (r : ContainerRef) : option Container :=
  match r with
  | InContainers i _ => nth_error (Containers (Spec pod)) i
  | InInitContainers i _ => nth_error (InitContainers (Spec pod)) i
  end.

(** [for i := range cs { if cs[i].Name == container { return ... } }],
    entered at index [i] with [cs] the elements from [i] on. *)
Fixpoint rangeByName (container : string) (cs : list Container) (i : nat)
  : option (nat * Container) :=
  match cs with
  | [] => None
  | c :: rest =>
      if Container_Name c =? container then Some (i, c)
      else rangeByName container rest (S i)
  end.

Definition containerToAttachTo (container : string) (pod : Pod)
  : outcome (result ContainerRef) :=
  if (0 <? String.length container)%nat then
    match rangeByName container (Containers (Spec pod)) 0 with
    | Some (i, c) => Returned (Ok (InContainers i c))
    | None =>
        match rangeByName container (InitContainers (Spec pod)) 0 with
        | Some (i, c) => Returned (Ok (InInitContainers i c))
        | None => Returned (Err ("container not found (" ++ container ++ ")"))
        end
    end
  else
    match Containers (Spec pod) with
    | c :: _ => Returned (Ok (InContainers 0 c))
    | [] => Panicked (IndexOutOfRange 0 0)
    end.

(** ** Streams and stream options *)

Module io.

(** An [io.Reader] or [io.Writer] interface value: nil, or a stream. *)
Definition Reader := option nat.
Definition Writer := option nat.

End io.

Module remotecommand.

Record StreamOptions := {
  Stdin : io.Reader;
  Stdout : io.Writer;
  Stderr : io.Writer;
  Tty : bool;
  TerminalSizeQueue : option nat
}.

(** [var streamOptions remotecommand.StreamOptions] *)
Definition zero : StreamOptions :=
  {| Stdin := None; Stdout := None; Stderr := None; Tty := false;
     TerminalSizeQueue := None |}.

Definition set_Stdin (v : io.Reader) (o : StreamOptions) : StreamOptions :=
  {| Stdin := v; Stdout := Stdout o; Stderr := Stderr o; Tty := Tty o;
     TerminalSizeQueue := TerminalSizeQueue o |}.

Definition set_Stdout (v : io.Writer) (o : StreamOptions) : StreamOptions :=
  {| Stdin := Stdin o; Stdout := v; Stderr := Stderr o; Tty := Tty o;
     TerminalSizeQueue := TerminalSizeQueue o |}.

Definition set_Stderr (v : io.Writer) (o : StreamOptions) : StreamOptions :=
  {| Stdin := Stdin o; Stdout := Stdout o; Stderr := v; Tty := Tty o;
     TerminalSizeQueue := TerminalSizeQueue o |}.

End remotecommand.

(** The pointer [attachOptions] is only read here; the function is given
    the value it points at. *)
Definition getStreamOptions (attachOptions : PodAttachOptions)
  (stdin : io.Reader) (stdout stderr : io.Writer)
  : remotecommand.StreamOptions :=
  let streamOptions := remotecommand.zero in
  let streamOptions :=
    if Stdin attachOptions then remotecommand.set_Stdin stdin streamOptions
    else streamOptions in
  let streamOptions :=
    if Stdout attachOptions then remotecommand.set_Stdout stdout streamOptions
    else streamOptions in
  let streamOptions :=
    if Stderr attachOptions then remotecommand.set_Stderr stderr streamOptions
    else streamOptions in
  streamOptions.

(** ** The stop signal *)

(** A [chan struct{}] on which nothing is ever sent: it is open or closed.
    [closes] is a ghost counter of the [close] operations that ran on it. *)
Record chan := { closed : bool; closes : nat }.

Definition make_chan : chan := {| closed := false; closes := 0 |}.

(** Go's [close]: closing a closed channel panics. *)
Definition close (ch : chan) : outcome chan :=
  if closed ch then Panicked CloseOfClosedChannel
  else Returned {| closed := true; closes := S (closes ch) |}.

Module sync.

Record Once := { done : bool }.

End sync.

Record stopChan := { c : chan; Once : sync.Once }.

Definition newStopChan : stopChan :=
  {| c := make_chan; Once := {| sync.done := false |} |}.

(** [sync.Once.Do] on the [Once] embedded in [s]: [f] runs only when no
    earlier call of [Do] on this [Once] has run it, and the [Once] is marked
    done when [f] is over.  [f] works on the struct that embeds the [Once].
    The mutex of the [Once] lets one call through at a time, so calls are
    taken one after the other. *)
Definition Do (f : stopChan -> outcome stopChan) (s : stopChan)
  : outcome stopChan :=
  if sync.done (Once s) then Returned s
  else
    match f s with
    | Returned s' => Returned {| c := c s'; Once := {| sync.done := true |} |}
    | Panicked p => Panicked p
    | Exited msg => Exited msg
    | Blocked => Blocked
    end.

Definition closeOnce (s : stopChan) : outcome stopChan :=
  Do (fun s =>
        match close (c s) with
        | Returned ch => Returned {| c := ch; Once := Once s |}
        | Panicked p => Panicked p
        | Exited msg => Exited msg
        | Blocked => Blocked
        end) s.

(** [n] calls of [closeOnce] in a row on the same [stopChan]. *)
Fixpoint closeOnceTimes (n : nat) (s : stopChan) : outcome stopChan :=
  match n with
  | 0 => Returned s
  | S n' =>
      match closeOnce s with
      | Returned s' => closeOnceTimes n' s'
      | Panicked p => Panicked p
      | Exited msg => Exited msg
      | Blocked => Blocked
      end
  end.

(** ** The client library and the program state *)

Inductive RestConfig := restConfig (id : nat).
Inductive Clientset := clientset_ (id : nat).
Inductive Executor := executor (id : nat).

(** The request built by
    [RESTClient().Post().Resource(..).Name(..).Namespace(..).SubResource(..)]
    followed by [VersionedParams]; [req.URL()] is determined by these. *)
Record Request := {
  client : Clientset;
  verb : string;
  resource : string;
  name : string;
  namespace : string;
  subresource : string;
  params : option PodAttachOptions
}.

Definition VersionedParams (o : PodAttachOptions) (req : Request) : Request :=
  {| client := client req; verb := verb req; resource := resource req;
     name := name req; namespace := namespace req;
     subresource := subresource req; params := Some o |}.

(** What an informer hands to its event handler. *)
Inductive Event :=
| Added (obj : Pod)
| Updated (oldObj newObj : Pod)
| Deleted (obj : Pod).

(** [cache.ResourceEventHandlerFuncs]: a nil function is not called.  A
    handler of this file acts on the [stopChan] it has captured. *)
Record ResourceEventHandlerFuncs := {
  AddFunc : option (Pod -> stopChan -> outcome stopChan);
  UpdateFunc : option (Pod -> Pod -> stopChan -> outcome stopChan);
  DeleteFunc : option (Pod -> stopChan -> outcome stopChan)
}.

(** The answers of the client library and of the cluster behind it. *)
Record Cluster := {
  BuildConfigFromFlags : string -> string -> result RestConfig;
  NewForConfig : RestConfig -> result Clientset;
  Create : Clientset -> string -> Pod -> result Pod;
  (** the notifications an informer on the pods of a namespace delivers,
      in order, resyncs included *)
  notifications : Clientset -> string -> list Event;
  (** how many more notifications reach the handler between the closing of
      the stop channel and the shutdown of the controller *)
  lateNotifications : nat;
  NewSPDYExecutor : RestConfig -> string -> Request -> result Executor;
  Stream : Executor -> remotecommand.StreamOptions -> option error
}.

(** What the program does to the outside, in the order it does it. *)
Inductive Effect :=
| PodsCreate (cs : Clientset) (ns : string) (pod : Pod)
| ListWatch (cs : Clientset) (res ns : string)
| Notify (e : Event)
| SPDYExecutor (config : RestConfig) (method : string) (url : Request)
| ExecStream (ex : Executor) (so : remotecommand.StreamOptions).

(** The program state: the effects so far, oldest first, and the
    [v1.PodAttachOptions] value that the pointer given to [attach] points
    at. *)
Record World := { log : list Effect; attachOptions : PodAttachOptions }.

Definition M (A : Type) : Type := World -> outcome A * World.

Definition ret {A} (a : A) : M A := fun w => (Returned a, w).

Definition bind {A B} (m : M A) (f : A -> M B) : M B :=
  fun w =>
    match m w with
    | (Returned a, w') => f a w'
    | (Panicked p, w') => (Panicked p, w')
    | (Exited msg, w') => (Exited msg, w')
    | (Blocked, w') => (Blocked, w')
    end.

Notation "x <- m ;; f" := (bind m (fun x => f))
  (at level 61, m at next level, right associativity).
Notation "m ;;; f" := (bind m (fun _ => f))
  (at level 61, right associativity).

Definition lift {A} (o : outcome A) : M A := fun w => (o, w).

(** [log.Fatalf]: the message is logged and the process exits. *)
Definition Fatalf {A} (msg : string) : M A := lift (Exited msg).

Definition emit (e : Effect) : M unit :=
  fun w => (Returned tt,
            {| log := log w ++ [e]; attachOptions := attachOptions w |}).

(** [attachOptions.Container = v] *)
Definition set_Container (v : string) : M unit :=
  fun w =>
    let o := attachOptions w in
    (Returned tt,
     {| log := log w;
        attachOptions :=
          {| Kind := Kind o; APIVersion := APIVersion o; Stdin := Stdin o;
             Stdout := Stdout o; Stderr := Stderr o; TTY := TTY o;
             Container_ := v |} |}).

Definition read_attachOptions : M PodAttachOptions :=
  fun w => (Returned (attachOptions w), w).

(** ** Configuration *)

(** The declarations of [Config] and of its secrets are outside
    [kube_util.go]; the records have the fields that the code reads. *)
Record Secret := {
  EnvVarName : string;
  SecretName : string;
  SecretKey : string
}.

Record Config := {
  Kubeconfig : string;
  Config_Namespace : string;
  Config_Name : string;
  Config_Image : string;
  Secrets : list Secret
}.

Definition boolPtr (b : bool) : option bool := Some b.

(** ** The functions of [kube_util.go] *)

Section Program.

Variable k : Cluster.

Definition getKubeClient (kubeconfig : string)
  : result (Clientset * RestConfig) :=
  match BuildConfigFromFlags k "" kubeconfig with
  | Err err =>
      Err ("could not get kubernetes config from kubeconfig '"
             ++ kubeconfig ++ "': " ++ err)
  | Ok config =>
      match NewForConfig k config with
      | Err err => Err ("could not get kubernetes client: " ++ err)
      | Ok clientset => Ok (clientset, config)
      end
  end.

(** [podsClient.Create(pod)] *)
Definition podsCreate (cs : Clientset) (ns : string) (pod : Pod)
  : M (result Pod) :=
  emit (PodsCreate cs ns pod) ;;; ret (Create k cs ns pod).

(** The [v1.EnvVar] appended for one secret of the configuration. *)
Definition secretEnvVar (s : Secret) : EnvVar :=
  {| EnvVar_Name := EnvVarName s;
     EnvVar_Value := "";
     ValueFrom := Some
       {| FieldRef := None; ResourceFieldRef := None; ConfigMapKeyRef := None;
          SecretKeyRef := Some
            {| SecretKeySelector_LocalObjectReference :=
                 {| LocalObjectReference_Name := SecretName s |};
               SecretKeySelector_Key := SecretKey s;
               SecretKeySelector_Optional := None |} |} |}.

Definition createPod (cfg : Config) (command args : list string)
  : M (result Pod) :=
  match getKubeClient (Kubeconfig cfg) with
  | Err err => Fatalf ("cannot get clientset: " ++ err)
  | Ok (clientset, _) =>
      let env :=
        fold_left (fun env s => (env ++ [secretEnvVar s])%list) (Secrets cfg) [] in
      podsCreate clientset (Config_Namespace cfg)
        {| Pod_ObjectMeta := {| Name := Config_Name cfg; Namespace := "" |};
           Spec :=
             {| Containers :=
                  [ {| Container_TTY := false;
                       Container_Stdin := true;
                       Container_Name := Config_Name cfg;
                       Image := Config_Image cfg;
                       Command := command;
                       Args := args;
                       Container_SecurityContext :=
                         Some {| Privileged := boolPtr false |};
                       ImagePullPolicy := PullAlways;
                       Env := env;
                       VolumeMounts := [] |} ];
                InitContainers := [];
                PodSpec_RestartPolicy := RestartPolicyOnFailure;
                Volumes := [];
                ImagePullSecrets := [] |};
           Status := {| Phase := PodPhaseUnset |} |}
  end.

Definition startStream (method : string) (url : Request)
  (config : RestConfig) (streamOptions : remotecommand.StreamOptions)
  : M (option error) :=
  emit (SPDYExecutor config method url) ;;;
  match NewSPDYExecutor k config method url with
  | Err err => ret (Some err)
  | Ok exec =>
      emit (ExecStream exec streamOptions) ;;;
      ret (Stream k exec streamOptions)
  end.

(** [attach]; its pointer argument [attachOptions] is the cell of that name
    in the program state. *)
Definition attach (kubeconfig : string) (pod : Pod)
  (stdin : io.Reader) (stdout stderr : io.Writer) : M (option error) :=
  match getKubeClient kubeconfig with
  | Err err => Fatalf ("cannot get clientset: " ++ err)
  | Ok (clientset, config) =>
      r <- lift (containerToAttachTo "" pod) ;;
      match r with
      | Err err => ret (Some ("cannot get container to attach to: " ++ err))
      | Ok container =>
          let req :=
            {| client := clientset; verb := "POST"; resource := "pods";
               name := Pod_Name pod; namespace := Pod_Namespace pod;
               subresource := "attach"; params := None |} in
          set_Container (Container_Name (target container)) ;;;
          opts <- read_attachOptions ;;
          let req := VersionedParams opts req in
          let streamOptions := getStreamOptions opts stdin stdout stderr in
          err <- startStream "POST" req config streamOptions ;;
          match err with
          | Some err => ret (Some ("error executing: " ++ err))
          | None => ret None
          end
      end
  end.

(** The informer calls the handler function that matches the event. *)
Definition dispatch (h : ResourceEventHandlerFuncs) (e : Event)
  (stop : stopChan) : outcome stopChan :=
  match e with
  | Added obj =>
      match AddFunc h with Some f => f obj stop | None => Returned stop end
  | Updated o n =>
      match UpdateFunc h with Some f => f o n stop | None => Returned stop end
  | Deleted obj =>
      match DeleteFunc h with Some f => f obj stop | None => Returned stop end
  end.

(** The controller's loop over the notifications [evs] still to come.  It
    blocks while the stop channel is open; once the channel is closed it
    hands at most [late] more notifications to the handler and returns.
    The result is the final state of the stop signal. *)
Fixpoint processLoop (h : ResourceEventHandlerFuncs) (late : nat)
  (evs : list Event) (stop : stopChan) : M stopChan :=
  match evs with
  | [] => if closed (c stop) then ret stop else lift Blocked
  | e :: evs' =>
      if closed (c stop) then
        match late with
        | 0 => ret stop
        | S late' =>
            emit (Notify e) ;;;
            stop' <- lift (dispatch h e stop) ;;
            processLoop h late' evs' stop'
        end
      else
        emit (Notify e) ;;;
        stop' <- lift (dispatch h e stop) ;;
        processLoop h late evs' stop'
  end.

(** [cache.NewInformer(watchlist, ..., handlers)] followed by
    [controller.Run(stop.c)]. *)
Definition controllerRun (cs : Clientset) (res ns : string)
  (h : ResourceEventHandlerFuncs) (stop : stopChan) : M stopChan :=
  emit (ListWatch cs res ns) ;;;
  processLoop h (lateNotifications k) (notifications k cs ns) stop.

(** The [UpdateFunc] closure of [waitPod]. *)
Definition waitPod_UpdateFunc (pod : Pod) (o n : Pod) (stop : stopChan)
  : outcome stopChan :=
  let newPod := n in
  if negb (Pod_Name newPod =? Pod_Name pod) then Returned stop
  else if PodPhase_eqb (Phase (Status newPod)) PodRunning then closeOnce stop
  else Returned stop.

Definition waitPod_handlers (pod : Pod) : ResourceEventHandlerFuncs :=
  {| AddFunc := None;
     UpdateFunc := Some (waitPod_UpdateFunc pod);
     DeleteFunc := None |}.

(** [waitPod], with the final state of its stop signal for the proofs. *)
Definition waitPod_stop (kubeconfig : string) (pod : Pod) : M stopChan :=
  match getKubeClient kubeconfig with
  | Err err => Fatalf ("cannot get clientset: " ++ err)
  | Ok (clientset, _) =>
      let stop := newStopChan in
      controllerRun clientset "pods" (Pod_Namespace pod)
        (waitPod_handlers pod) stop
  end.

Definition waitPod (kubeconfig : string) (pod : Pod) : M unit :=
  waitPod_stop kubeconfig pod ;;; ret tt.

(** Modelled from the spec: the caller that chains the helpers is not in
    [kube_util.go].  The description gives the order of the calls: create
    the pod, list and watch the pods until it runs, then build and start
    the attach request.  A failed creation ends the sequence with its
    error. *)
Definition createWaitAttach (cfg : Config) (command args : list string)
  (stdin : io.Reader) (stdout stderr : io.Writer) : M (option error) :=
  r <- createPod cfg command args ;;
  match r with
  | Err err => ret (Some err)
  | Ok pod =>
      waitPod (Kubeconfig cfg) pod ;;;
      attach (Kubeconfig cfg) pod stdin stdout stderr
  end.

End Program.
(** ** Predicates and values used in the statements *)

(** [c] is the first element of [cs] named [name], and sits at index [i]. *)
Definition firstNamed (name : string) (cs : list Container) (i : nat)
  (c : Container) : Prop :=
  nth_error cs i = Some c /\ Container_Name c = name /\
  forall j d, j < i -> nth_error cs j = Some d -> Container_Name d <> name.

Definition noneNamed (name : string) (cs : list Container) : Prop :=
  forall d, In d cs -> Container_Name d <> name.

(** The notification that makes [waitPod] stop: an update that delivers a
    pod with the watched pod's name in phase [PodRunning]. *)
Definition isRunningUpdate (pod : Pod) (e : Event) : bool :=
  match e with
  | Updated _ n =>
      (Pod_Name n =? Pod_Name pod)
      && PodPhase_eqb (Phase (Status n)) PodRunning
  | _ => false
  end.

Definition noRunningUpdate (pod : Pod) (evs : list Event) : Prop :=
  forall e, In e evs -> isRunningUpdate pod e = false.

(** The stop signal after its channel has been closed once. *)
Definition closedStop : stopChan :=
  {| c := {| closed := true; closes := 1 |};
     Once := {| sync.done := true |} |}.

(** The state [w] with the effects [es] appended to its log. *)
Definition addLog (es : list Effect) (w : World) : World :=
  {| log := (log w ++ es)%list; attachOptions := attachOptions w |}.

Definition with_Container (v : string) (o : PodAttachOptions)
  : PodAttachOptions :=
  {| Kind := Kind o; APIVersion := APIVersion o; Stdin := Stdin o;
     Stdout := Stdout o; Stderr := Stderr o; TTY := TTY o; Container_ := v |}.

(** The attach request for [pod] made with the client [cs], carrying the
    options [opts]. *)
Definition attachRequest (cs : Clientset) (pod : Pod) (opts : PodAttachOptions)
  : Request :=
  {| client := cs; verb := "POST"; resource := "pods"; name := Pod_Name pod;
     namespace := Pod_Namespace pod; subresource := "attach";
     params := Some opts |}.

(** The error that [attach] makes of the one of [startStream]. *)
Definition executing (e : option error) : option error :=
  match e with
  | Some err => Some ("error executing: " ++ err)
  | None => None
  end.

(** [ev] is backed by the secret entry [s]: it has the entry's variable
    name and refers to the entry's key of the entry's secret. *)
Definition secretBacked (s : Secret) (ev : EnvVar) : Prop :=
  EnvVar_Name ev = EnvVarName s /\
  exists src sel,
    ValueFrom ev = Some src /\ SecretKeyRef src = Some sel /\
    LocalObjectReference_Name (SecretKeySelector_LocalObjectReference sel)
    = SecretName s /\
    SecretKeySelector_Key sel = SecretKey s.

(** The fixed shape of the pods submitted for [cfg]. *)
Definition fixedSpec (cfg : Config) (p : Pod) : Prop :=
  exists ctr,
    Containers (Spec p) = [ctr] /\
    Container_Name ctr = Config_Name cfg /\
    Image ctr = Config_Image cfg /\
    Container_TTY ctr = false /\
    Container_Stdin ctr = true /\
    (exists sc, Container_SecurityContext ctr = Some sc /\
                Privileged sc = Some false) /\
    ImagePullPolicy ctr = PullAlways /\
    PodSpec_RestartPolicy (Spec p) = RestartPolicyOnFailure /\
    Forall2 secretBacked (Secrets cfg) (Env ctr).

(** The pod literal of [createPod], with the [Env] that its loop builds. *)
Definition submittedPod (cfg : Config) (command args : list string) : Pod :=
  {| Pod_ObjectMeta := {| Name := Config_Name cfg; Namespace := "" |};
     Spec :=
       {| Containers :=
            [ {| Container_TTY := false;
                 Container_Stdin := true;
                 Container_Name := Config_Name cfg;
                 Image := Config_Image cfg;
                 Command := command;
                 Args := args;
                 Container_SecurityContext :=
                   Some {| Privileged := Some false |};
                 ImagePullPolicy := PullAlways;
                 Env := map secretEnvVar (Secrets cfg);
                 VolumeMounts := [] |} ];
          InitContainers := [];
          PodSpec_RestartPolicy := RestartPolicyOnFailure;
          Volumes := [];
          ImagePullSecrets := [] |};
     Status := {| Phase := PodPhaseUnset |} |}.

(** *** Sample values *)

Definition sampleContainer (n : string) : Container :=
  {| Container_Name := n; Image := "busybox"; Command := ["sh"]; Args := [];
     Env := []; VolumeMounts := []; ImagePullPolicy := PullAlways;
     Container_SecurityContext := None; Container_Stdin := true;
     Container_TTY := false |}.

Definition samplePodIn (ph : PodPhase) (n : string) (cs ics : list Container)
  : Pod :=
  {| Pod_ObjectMeta := {| Name := n; Namespace := "default" |};
     Spec := {| Volumes := []; InitContainers := ics; Containers := cs;
                PodSpec_RestartPolicy := RestartPolicyOnFailure;
                ImagePullSecrets := [] |};
     Status := {| Phase := ph |} |}.

Definition samplePod : Pod :=
  samplePodIn PodPending "job"
    [sampleContainer "app"; sampleContainer "sidecar"]
    [sampleContainer "setup"; sampleContainer "sidecar"].

Definition runningPod : Pod :=
  samplePodIn PodRunning "job"
    [sampleContainer "app"; sampleContainer "sidecar"]
    [sampleContainer "setup"; sampleContainer "sidecar"].

Definition otherPod : Pod :=
  samplePodIn PodRunning "other" [sampleContainer "web"] [].

Definition emptyPod : Pod := samplePodIn PodRunning "bare" [] [].

(** The pod as the server stores it in the namespace [ns]. *)
Definition inNamespace (ns : string) (pod : Pod) : Pod :=
  {| Pod_ObjectMeta := {| Name := Pod_Name pod; Namespace := ns |};
     Spec := Spec pod; Status := Status pod |}.

Definition sampleEvents : list Event :=
  [ Added samplePod; Updated otherPod otherPod; Updated samplePod samplePod;
    Updated samplePod runningPod; Updated runningPod runningPod;
    Updated runningPod runningPod ].

Definition sampleCluster : Cluster :=
  {| BuildConfigFromFlags := fun _ _ => Ok (restConfig 0);
     NewForConfig := fun _ => Ok (clientset_ 0);
     Create := fun _ ns pod => Ok (inNamespace ns pod);
     notifications := fun _ _ => sampleEvents;
     lateNotifications := 1;
     NewSPDYExecutor := fun _ _ _ => Ok (executor 0);
     Stream := fun _ _ => None |}.

Definition sampleOptions : PodAttachOptions :=
  {| Kind := ""; APIVersion := ""; Stdin := true; Stdout := true;
     Stderr := false; TTY := false; Container_ := "sidecar" |}.

Definition sampleWorld : World :=
  {| log := []; attachOptions := sampleOptions |}.

Definition sampleConfig : Config :=
  {| Kubeconfig := "/home/user/.kube/config"; Config_Namespace := "default";
     Config_Name := "job"; Config_Image := "busybox";
     Secrets := [ {| EnvVarName := "TOKEN"; SecretName := "api";
                     SecretKey := "token" |};
                  {| EnvVarName := "PASS"; SecretName := "db";
                     SecretKey := "password" |} ] |}.

(** A cluster for which no configuration can be read. *)
Definition brokenCluster : Cluster :=
  {| BuildConfigFromFlags := fun _ _ => Err "no such file";
     NewForConfig := fun _ => Ok (clientset_ 0);
     Create := fun _ ns pod => Ok (inNamespace ns pod);
     notifications := fun _ _ => sampleEvents;
     lateNotifications := 1;
     NewSPDYExecutor := fun _ _ _ => Ok (executor 0);
     Stream := fun _ _ => None |}.

(** A cluster on which every stream ends with an error. *)
Definition droppingCluster : Cluster :=
  {| BuildConfigFromFlags := fun _ _ => Ok (restConfig 0);
     NewForConfig := fun _ => Ok (clientset_ 0);
     Create := fun _ ns pod => Ok (inNamespace ns pod);
     notifications := fun _ _ => sampleEvents;
     lateNotifications := 1;
     NewSPDYExecutor := fun _ _ _ => Ok (executor 0);
     Stream := fun _ _ => Some "EOF" |}.

(** The sample configuration read from another kubeconfig file. *)
Definition sampleConfigElsewhere : Config :=
  {| Kubeconfig := "/etc/kube/admin.conf";
     Config_Namespace := Config_Namespace sampleConfig;
     Config_Name := Config_Name sampleConfig;
     Config_Image := Config_Image sampleConfig;
     Secrets := Secrets sampleConfig |}.

(** * Properties *)

Local Open Scope list_scope.

(** ** Container lookup *)

Lemma rangeByName_found name cs : forall k i c,
  rangeByName name cs k = Some (i, c) ->
  k <= i /\ firstNamed name cs (i - k) c.
Proof.
  induction cs as [|d cs IH]; intros k i c; simpl.
  - discriminate.
  - destruct (Container_Name d =? name) eqn:E.
    + intros [= <- <-]. apply String.eqb_eq in E.
      rewrite Nat.sub_diag. split; [lia|].
      repeat split; auto. intros j d' Hj. lia.
    + intros H. apply IH in H as [Hle (Hn & Hname & Hfirst)].
      apply String.eqb_neq in E.
      split; [lia|].
      replace (i - k) with (S (i - S k)) by lia.
      repeat split; auto.
      intros [|j] d' Hj; simpl.
      * intros [= <-]. exact E.
      * apply Hfirst. lia.
Qed.

Lemma rangeByName_none name cs : forall k,
  rangeByName name cs k = None <-> noneNamed name cs.
Proof.
  induction cs as [|d cs IH]; intros k; simpl.
  - split; [intros _ d []|reflexivity].
  - destruct (Container_Name d =? name) eqn:E.
    + apply String.eqb_eq in E. split; [discriminate|].
      intros H. exfalso. apply (H d); [left; reflexivity|exact E].
    + apply String.eqb_neq in E. rewrite IH. split.
      * intros H d' [<-|Hin]; auto.
      * intros H d' Hin. apply H. right. exact Hin.
Qed.

Lemma firstNamed_unique name cs i c i' c' :
  firstNamed name cs i c -> firstNamed name cs i' c' -> i = i' /\ c = c'.
Proof.
  intros (Hn & Hname & Hfirst) (Hn' & Hname' & Hfirst').
  assert (i = i') as ->.
  { destruct (Nat.lt_trichotomy i i') as [Hlt|[Heq|Hgt]]; auto.
    - exfalso. exact (Hfirst' _ _ Hlt Hn Hname).
    - exfalso. exact (Hfirst _ _ Hgt Hn' Hname'). }
  split; congruence.
Qed.

Lemma firstNamed_not_none name cs i c :
  firstNamed name cs i c -> ~ noneNamed name cs.
Proof.
  intros (Hn & Hname & _) Hnone.
  apply nth_error_In in Hn. exact (Hnone _ Hn Hname).
Qed.

Lemma rangeByName_first name cs i c :
  firstNamed name cs i c -> rangeByName name cs 0 = Some (i, c).
Proof.
  intros Hf. destruct (rangeByName name cs 0) as [[i' c']|] eqn:E.
  - apply rangeByName_found in E as [_ Hf']. rewrite Nat.sub_0_r in Hf'.
    destruct (firstNamed_unique _ _ _ _ _ _ Hf Hf') as [-> ->]. reflexivity.
  - apply rangeByName_none in E. exfalso.
    exact (firstNamed_not_none _ _ _ _ Hf E).
Qed.

Lemma nonempty_length (s : string) : s <> "" -> (0 <? String.length s)%nat = true.
Proof. destruct s; [congruence|reflexivity]. Qed.

(** C1. For a non-empty container name, [containerToAttachTo] is a linear
    lookup.  It returns without error a pointer to the first element of
    [pod.Spec.Containers] with that name; when no regular container has the
    name, a pointer to the first element of [pod.Spec.InitContainers] with
    that name; when neither slice has one, the error
    [container not found (<name>)] and no container.  A regular container
    wins over an init container of the same name, one of the three cases
    always applies, and the pointer returned reads an element with the
    requested name. *)
Theorem containerToAttachTo_linear_lookup (container : string) (pod : Pod)
  (Hname : container <> "") :
  let cs := Containers (Spec pod) in
  let ics := InitContainers (Spec pod) in
  let r := containerToAttachTo container pod in
  (forall i c, firstNamed container cs i c ->
     r = Returned (Ok (InContainers i c))) /\
  (forall i c, noneNamed container cs -> firstNamed container ics i c ->
     r = Returned (Ok (InInitContainers i c))) /\
  (noneNamed container cs -> noneNamed container ics ->
     r = Returned (Err ("container not found (" ++ container ++ ")")%string)) /\
  ((exists i c, firstNamed container cs i c) \/
   (noneNamed container cs /\ exists i c, firstNamed container ics i c) \/
   (noneNamed container cs /\ noneNamed container ics)) /\
  (forall ref, r = Returned (Ok ref) ->
     deref pod ref = Some (target ref) /\
     Container_Name (target ref) = container).
Proof.
  intros cs ics r. subst r. unfold containerToAttachTo.
  rewrite (nonempty_length _ Hname). fold cs ics.
  split; [|split; [|split; [|split]]].
  - intros i c Hf. rewrite (rangeByName_first _ _ _ _ Hf). reflexivity.
  - intros i c Hnone Hf. apply rangeByName_none with (k := 0) in Hnone.
    rewrite Hnone, (rangeByName_first _ _ _ _ Hf). reflexivity.
  - intros Hn1 Hn2. apply rangeByName_none with (k := 0) in Hn1, Hn2.
    rewrite Hn1, Hn2. reflexivity.
  - destruct (rangeByName container cs 0) as [[i c]|] eqn:E1.
    + left. apply rangeByName_found in E1 as [_ Hf].
      rewrite Nat.sub_0_r in Hf. eauto.
    + right. apply rangeByName_none in E1.
      destruct (rangeByName container ics 0) as [[i c]|] eqn:E2.
      * left. apply rangeByName_found in E2 as [_ Hf].
        rewrite Nat.sub_0_r in Hf. eauto.
      * right. apply rangeByName_none in E2. auto.
  - intros ref.
    destruct (rangeByName container cs 0) as [[i c]|] eqn:E1.
    + intros [= <-]. apply rangeByName_found in E1 as [_ (Hn & Hc & _)].
      rewrite Nat.sub_0_r in Hn. split; assumption.
    + destruct (rangeByName container ics 0) as [[i c]|] eqn:E2;
        [|discriminate].
      intros [= <-]. apply rangeByName_found in E2 as [_ (Hn & Hc & _)].
      rewrite Nat.sub_0_r in Hn. split; assumption.
Qed.

Lemma containerToAttachTo_linear_lookup_witness :
  containerToAttachTo "sidecar" samplePod
  = Returned (Ok (InContainers 1 (sampleContainer "sidecar"))) /\
  containerToAttachTo "setup" samplePod
  = Returned (Ok (InInitContainers 0 (sampleContainer "setup"))) /\
  containerToAttachTo "db" samplePod
  = Returned (Err "container not found (db)").
Proof.
  assert (Hne : forall a s, String a s <> "") by discriminate.
  split; [|split].
  - apply (containerToAttachTo_linear_lookup "sidecar" samplePod (Hne _ _)).
    repeat split. intros [|j] d Hj; [|lia]. intros [= <-]. discriminate.
  - apply (containerToAttachTo_linear_lookup "setup" samplePod (Hne _ _)).
    + intros d [<-|[<-|[]]]; discriminate.
    + repeat split. intros j d Hj. lia.
  - apply (containerToAttachTo_linear_lookup "db" samplePod (Hne _ _)).
    + intros d [<-|[<-|[]]]; discriminate.
    + intros d [<-|[<-|[]]]; discriminate.
Defined.

(** With the empty name the lookup is the indexing of the first regular
    container, whatever the init containers are. *)
Lemma containerToAttachTo_empty (pod : Pod) :
  containerToAttachTo "" pod =
  match Containers (Spec pod) with
  | ctr :: _ => Returned (Ok (InContainers 0 ctr))
  | [] => Panicked (IndexOutOfRange 0 0)
  end.
Proof. reflexivity. Qed.

(** C7. With an empty container name [containerToAttachTo] indexes
    [pod.Spec.Containers[0]] without a test: when the slice is not empty it
    returns a pointer to its first element and a nil error, and when the
    slice is empty the index is out of range and the call panics.  It
    returns exactly when the pod has at least one container, and it never
    returns an error. *)
Theorem containerToAttachTo_empty_name (pod : Pod) :
  (forall c rest, Containers (Spec pod) = c :: rest ->
     containerToAttachTo "" pod = Returned (Ok (InContainers 0 c))) /\
  (Containers (Spec pod) = [] ->
     containerToAttachTo "" pod = Panicked (IndexOutOfRange 0 0)) /\
  ((exists r, containerToAttachTo "" pod = Returned r)
   <-> Containers (Spec pod) <> []) /\
  (forall e, containerToAttachTo "" pod <> Returned (Err e)).
Proof.
  rewrite containerToAttachTo_empty.
  destruct (Containers (Spec pod)) as [|c rest].
  - split; [discriminate|]. split; [reflexivity|]. split; [|discriminate].
    split; [intros [r Hr]; discriminate|congruence].
  - split; [intros c' rest' [= <- <-]; reflexivity|].
    split; [discriminate|]. split; [|discriminate].
    split; [discriminate|]. intros _. eexists. reflexivity.
Qed.

Lemma containerToAttachTo_empty_name_witness :
  containerToAttachTo "" samplePod
  = Returned (Ok (InContainers 0 (sampleContainer "app"))) /\
  containerToAttachTo "" emptyPod = Panicked (IndexOutOfRange 0 0).
Proof.
  split.
  - apply (proj1 (containerToAttachTo_empty_name samplePod)
             (sampleContainer "app") [sampleContainer "sidecar"]).
    reflexivity.
  - apply (proj1 (proj2 (containerToAttachTo_empty_name emptyPod))).
    reflexivity.
Defined.

(** ** Stream options *)

(** C5. [getStreamOptions] assigns each of the three streams exactly when
    the flag of the same name is set in the attach options: with the flag
    set the field holds the stream that was passed, with the flag clear the
    field is nil.  So a stream that was passed (not nil) is present in the
    result if and only if its flag is true.  The two other fields of
    [StreamOptions] keep their zero values. *)
Theorem getStreamOptions_flags (attachOptions : PodAttachOptions)
  (stdin : io.Reader) (stdout stderr : io.Writer) :
  let so := getStreamOptions attachOptions stdin stdout stderr in
  remotecommand.Stdin so = (if Stdin attachOptions then stdin else None) /\
  remotecommand.Stdout so = (if Stdout attachOptions then stdout else None) /\
  remotecommand.Stderr so = (if Stderr attachOptions then stderr else None) /\
  (stdin <> None ->
     (remotecommand.Stdin so <> None <-> Stdin attachOptions = true)) /\
  (stdout <> None ->
     (remotecommand.Stdout so <> None <-> Stdout attachOptions = true)) /\
  (stderr <> None ->
     (remotecommand.Stderr so <> None <-> Stderr attachOptions = true)) /\
  remotecommand.Tty so = false /\
  remotecommand.TerminalSizeQueue so = None.
Proof.
  unfold getStreamOptions.
  destruct (Stdin attachOptions), (Stdout attachOptions),
    (Stderr attachOptions); simpl;
    repeat split; intros; try congruence.
Qed.

Lemma getStreamOptions_flags_witness :
  getStreamOptions sampleOptions (Some 0) (Some 1) (Some 2)
  = {| remotecommand.Stdin := Some 0; remotecommand.Stdout := Some 1;
       remotecommand.Stderr := None; remotecommand.Tty := false;
       remotecommand.TerminalSizeQueue := None |} /\
  remotecommand.Stdin
    (getStreamOptions sampleOptions (Some 0) (Some 1) (Some 2)) <> None /\
  ~ remotecommand.Stderr
      (getStreamOptions sampleOptions (Some 0) (Some 1) (Some 2)) <> None.
Proof.
  destruct (getStreamOptions_flags sampleOptions (Some 0) (Some 1) (Some 2))
    as (H0 & H1 & H2 & Hin & _ & Herr & H3 & H4).
  split.
  - destruct (getStreamOptions sampleOptions (Some 0) (Some 1) (Some 2)).
    simpl in *. congruence.
  - split.
    + apply Hin; [discriminate|reflexivity].
    + intros Hset. apply Herr in Hset; discriminate.
Defined.

(** ** The stop signal *)

Lemma closeOnce_new : closeOnce newStopChan = Returned closedStop.
Proof. reflexivity. Qed.

Lemma closeOnce_closed : closeOnce closedStop = Returned closedStop.
Proof. reflexivity. Qed.

Lemma closeOnceTimes_closed (n : nat) :
  closeOnceTimes n closedStop = Returned closedStop.
Proof. induction n as [|n IH]; simpl; [reflexivity|exact IH]. Qed.

(** C2. The stop signal is one-shot and close-safe.  On a [stopChan] made
    by [newStopChan], any number [n] of calls of [closeOnce] returns: none
    panics.  The first call closes the channel [s.c]; every later call
    finds the [Once] done and leaves the whole state as it is, so [close]
    is not run again.  After [n] calls the channel has been closed once
    when [n > 0], and not at all when [n = 0]. *)
Theorem closeOnce_one_shot (n : nat) :
  closeOnce newStopChan = Returned closedStop /\
  closeOnce closedStop = Returned closedStop /\
  closeOnceTimes n newStopChan
  = Returned (if (n =? 0)%nat then newStopChan else closedStop) /\
  (exists s, closeOnceTimes n newStopChan = Returned s /\
             closes (c s) = Nat.min 1 n /\
             closed (c s) = negb (n =? 0)%nat) /\
  closed (c closedStop) = true /\ closes (c closedStop) = 1 /\
  close (c closedStop) = Panicked CloseOfClosedChannel.
Proof.
  assert (H : closeOnceTimes n newStopChan
              = Returned (if (n =? 0)%nat then newStopChan else closedStop)).
  { destruct n as [|n]; [reflexivity|].
    simpl. apply (closeOnceTimes_closed n). }
  repeat split; auto.
  rewrite H. eexists. split; [reflexivity|].
  destruct n; simpl; auto.
Qed.

(** ** The program state *)

Lemma addLog_nil (w : World) : addLog [] w = w.
Proof. destruct w. unfold addLog. simpl. rewrite app_nil_r. reflexivity. Qed.

Lemma addLog_app (es1 es2 : list Effect) (w : World) :
  addLog es2 (addLog es1 w) = addLog (es1 ++ es2) w.
Proof. unfold addLog. simpl. rewrite app_assoc. reflexivity. Qed.

Lemma emit_addLog (e : Effect) (w : World) :
  emit e w = (Returned tt, addLog [e] w).
Proof. reflexivity. Qed.

(** ** Waiting for the pod *)

Lemma PodPhase_eqb_eq (a b : PodPhase) : PodPhase_eqb a b = true <-> a = b.
Proof. destruct a, b; simpl; split; intro H; congruence. Qed.

Lemma isRunningUpdate_true (pod : Pod) (e : Event) :
  isRunningUpdate pod e = true <->
  exists o n, e = Updated o n /\ Pod_Name n = Pod_Name pod /\
              Phase (Status n) = PodRunning.
Proof.
  split.
  - destruct e as [obj|o n|obj]; simpl; try discriminate.
    intros H. apply andb_prop in H as [Hn Hp].
    apply String.eqb_eq in Hn. apply PodPhase_eqb_eq in Hp.
    exists o, n. auto.
  - intros (o & n & -> & Hn & Hp). simpl.
    rewrite Hn, Hp, String.eqb_refl. reflexivity.
Qed.

Lemma waitPod_UpdateFunc_eq (pod o n : Pod) (stop : stopChan) :
  waitPod_UpdateFunc pod o n stop
  = if isRunningUpdate pod (Updated o n) then closeOnce stop
    else Returned stop.
Proof.
  unfold waitPod_UpdateFunc, isRunningUpdate.
  destruct (Pod_Name n =? Pod_Name pod); simpl; [|reflexivity].
  destruct (PodPhase_eqb (Phase (Status n)) PodRunning); reflexivity.
Qed.

Lemma dispatch_waitPod (pod : Pod) (e : Event) (stop : stopChan) :
  dispatch (waitPod_handlers pod) e stop
  = if isRunningUpdate pod e then closeOnce stop else Returned stop.
Proof.
  destruct e as [obj|o n|obj]; try reflexivity.
  apply waitPod_UpdateFunc_eq.
Qed.

Lemma processLoop_cons h late e evs stop w :
  processLoop h late (e :: evs) stop w =
  if closed (c stop) then
    match late with
    | 0 => (Returned stop, w)
    | S late' =>
        match dispatch h e stop with
        | Returned stop' => processLoop h late' evs stop' (addLog [Notify e] w)
        | Panicked p => (Panicked p, addLog [Notify e] w)
        | Exited msg => (Exited msg, addLog [Notify e] w)
        | Blocked => (Blocked, addLog [Notify e] w)
        end
    end
  else
    match dispatch h e stop with
    | Returned stop' => processLoop h late evs stop' (addLog [Notify e] w)
    | Panicked p => (Panicked p, addLog [Notify e] w)
    | Exited msg => (Exited msg, addLog [Notify e] w)
    | Blocked => (Blocked, addLog [Notify e] w)
    end.
Proof.
  cbn [processLoop]. destruct (closed (c stop)); [destruct late|];
    try reflexivity; unfold bind, lift; rewrite emit_addLog;
    destruct (dispatch h e stop); reflexivity.
Qed.

(** Once the channel is closed the loop hands over at most [late] more
    notifications; a running pod among them calls [closeOnce] again, which
    changes nothing. *)
Lemma processLoop_closed (pod : Pod) : forall evs late w,
  processLoop (waitPod_handlers pod) late evs closedStop w
  = (Returned closedStop, addLog (map Notify (firstn late evs)) w).
Proof.
  induction evs as [|e evs IH]; intros late w.
  - rewrite firstn_nil. simpl. rewrite addLog_nil. reflexivity.
  - rewrite processLoop_cons. cbn [closedStop c closed].
    destruct late as [|late].
    + simpl. rewrite addLog_nil. reflexivity.
    + rewrite dispatch_waitPod, closeOnce_closed.
      assert (Hd : (if isRunningUpdate pod e then Returned closedStop
                    else Returned closedStop) = Returned closedStop)
        by (destruct (isRunningUpdate pod e); reflexivity).
      rewrite Hd, IH, addLog_app. reflexivity.
Qed.

(** While no running pod of the watched name is delivered the channel stays
    open and the loop does not return. *)
Lemma processLoop_blocked (pod : Pod) : forall evs late w,
  noRunningUpdate pod evs ->
  processLoop (waitPod_handlers pod) late evs newStopChan w
  = (Blocked, addLog (map Notify evs) w).
Proof.
  induction evs as [|e evs IH]; intros late w Hno.
  - simpl. rewrite addLog_nil. reflexivity.
  - rewrite processLoop_cons. cbn [newStopChan c make_chan closed].
    rewrite dispatch_waitPod, (Hno e (or_introl eq_refl)).
    rewrite IH by (intros e' He'; apply Hno; right; exact He').
    rewrite addLog_app. reflexivity.
Qed.

(** The first running pod of the watched name closes the channel. *)
Lemma processLoop_running (pod : Pod) : forall pre late e post w,
  noRunningUpdate pod pre -> isRunningUpdate pod e = true ->
  processLoop (waitPod_handlers pod) late (pre ++ e :: post) newStopChan w
  = (Returned closedStop,
     addLog (map Notify (pre ++ e :: firstn late post)) w).
Proof.
  induction pre as [|x pre IH]; intros late e post w Hno He.
  - cbn [app]. rewrite processLoop_cons.
    cbn [newStopChan c make_chan closed].
    rewrite dispatch_waitPod, He, closeOnce_new, processLoop_closed.
    rewrite addLog_app. reflexivity.
  - cbn [app]. rewrite processLoop_cons.
    cbn [newStopChan c make_chan closed].
    rewrite dispatch_waitPod, (Hno x (or_introl eq_refl)).
    rewrite IH; auto.
    + rewrite addLog_app. reflexivity.
    + intros e' He'. apply Hno. right. exact He'.
Qed.

Lemma first_running_update (pod : Pod) (evs : list Event) :
  noRunningUpdate pod evs \/
  exists pre e post, evs = pre ++ e :: post /\ noRunningUpdate pod pre /\
                     isRunningUpdate pod e = true.
Proof.
  induction evs as [|x evs IH].
  - left. intros e [].
  - destruct (isRunningUpdate pod x) eqn:Hx.
    + right. exists [], x, evs. repeat split; auto. intros e [].
    + destruct IH as [Hno|(pre & e & post & -> & Hno & He)].
      * left. intros e [<-|Hin]; auto.
      * right. exists (x :: pre), e, post. repeat split; auto.
        intros e' [<-|Hin]; auto.
Qed.

(** The first running update of a list of notifications is unique. *)
Lemma first_running_unique (pod : Pod) : forall pre e post pre' e' post',
  noRunningUpdate pod pre -> isRunningUpdate pod e = true ->
  noRunningUpdate pod pre' -> isRunningUpdate pod e' = true ->
  pre ++ e :: post = pre' ++ e' :: post' ->
  pre = pre' /\ e = e' /\ post = post'.
Proof.
  induction pre as [|x pre IH]; intros e post pre' e' post' Hno He Hno' He' Heq.
  - destruct pre' as [|x' pre'].
    + injection Heq as <- <-. auto.
    + injection Heq as <- _. exfalso.
      rewrite (Hno' e (or_introl eq_refl)) in He. discriminate.
  - destruct pre' as [|x' pre'].
    + injection Heq as -> _. exfalso.
      rewrite (Hno e' (or_introl eq_refl)) in He'. discriminate.
    + injection Heq as <- Heq.
      destruct (IH e post pre' e' post') as (-> & -> & ->); auto.
      * intros y Hy. apply Hno. right. exact Hy.
      * intros y Hy. apply Hno'. right. exact Hy.
Qed.

Lemma waitPod_stop_eq (k : Cluster) (kubeconfig : string) (pod : Pod)
  (w : World) :
  waitPod_stop k kubeconfig pod w =
  match getKubeClient k kubeconfig with
  | Err err => (Exited ("cannot get clientset: " ++ err)%string, w)
  | Ok (cs, _) =>
      processLoop (waitPod_handlers pod) (lateNotifications k)
        (notifications k cs (Pod_Namespace pod)) newStopChan
        (addLog [ListWatch cs "pods" (Pod_Namespace pod)] w)
  end.
Proof.
  unfold waitPod_stop. destruct (getKubeClient k kubeconfig) as [[cs cfg]|err];
    reflexivity.
Qed.

Lemma waitPod_eq (k : Cluster) (kubeconfig : string) (pod : Pod) (w : World) :
  waitPod k kubeconfig pod w =
  match waitPod_stop k kubeconfig pod w with
  | (Returned _, w') => (Returned tt, w')
  | (Panicked p, w') => (Panicked p, w')
  | (Exited msg, w') => (Exited msg, w')
  | (Blocked, w') => (Blocked, w')
  end.
Proof.
  unfold waitPod, bind. destruct (waitPod_stop k kubeconfig pod w) as [[] ?];
    reflexivity.
Qed.

(** What [waitPod] does, by cases on the client and on the notifications:
    it exits when no client can be made, stays blocked while no running pod
    of the watched name is delivered, and returns after the first one. *)
Lemma waitPod_cases (k : Cluster) (kubeconfig : string) (pod : Pod)
  (w : World) :
  (exists err, getKubeClient k kubeconfig = Err err /\
     waitPod_stop k kubeconfig pod w
     = (Exited ("cannot get clientset: " ++ err)%string, w)) \/
  (exists cs cfg, getKubeClient k kubeconfig = Ok (cs, cfg) /\
     noRunningUpdate pod (notifications k cs (Pod_Namespace pod)) /\
     waitPod_stop k kubeconfig pod w
     = (Blocked,
        addLog (ListWatch cs "pods" (Pod_Namespace pod)
                  :: map Notify (notifications k cs (Pod_Namespace pod))) w)) \/
  (exists cs cfg pre e post, getKubeClient k kubeconfig = Ok (cs, cfg) /\
     notifications k cs (Pod_Namespace pod) = pre ++ e :: post /\
     noRunningUpdate pod pre /\ isRunningUpdate pod e = true /\
     waitPod_stop k kubeconfig pod w
     = (Returned closedStop,
        addLog (ListWatch cs "pods" (Pod_Namespace pod)
                  :: map Notify
                       (pre ++ e :: firstn (lateNotifications k) post)) w)).
Proof.
  rewrite waitPod_stop_eq.
  destruct (getKubeClient k kubeconfig) as [[cs cfg]|err].
  - right.
    destruct (first_running_update pod (notifications k cs (Pod_Namespace pod)))
      as [Hno|(pre & e & post & Hev & Hno & He)].
    + left. exists cs, cfg. repeat split; auto.
      rewrite processLoop_blocked, addLog_app by exact Hno. reflexivity.
    + right. exists cs, cfg, pre, e, post. repeat split; auto.
      rewrite Hev, processLoop_running, addLog_app by assumption.
      reflexivity.
  - left. exists err. auto.
Qed.

(** C3. [waitPod] waits until the created pod is running.  The handler
    closes the stop channel only on an update that delivers a pod with the
    watched pod's name in phase [PodRunning]: an update for a pod of another
    name or in another phase, an addition and a deletion leave the stop
    signal as it is.  [waitPod] returns only after such an update has been
    handed to the handler, no earlier notification being one; until then it
    is blocked; and when such an update arrives it does return, with the
    channel closed once whatever is delivered afterwards. *)
Theorem waitPod_until_running (k : Cluster) (kubeconfig : string) (pod : Pod)
  (w : World) :
  (forall o n stop,
     Pod_Name n <> Pod_Name pod \/ Phase (Status n) <> PodRunning ->
     waitPod_UpdateFunc pod o n stop = Returned stop) /\
  (forall o n stop stop',
     waitPod_UpdateFunc pod o n stop = Returned stop' ->
     closed (c stop) = false -> closed (c stop') = true ->
     Pod_Name n = Pod_Name pod /\ Phase (Status n) = PodRunning) /\
  (forall obj stop,
     dispatch (waitPod_handlers pod) (Added obj) stop = Returned stop /\
     dispatch (waitPod_handlers pod) (Deleted obj) stop = Returned stop) /\
  (forall w', waitPod k kubeconfig pod w = (Returned tt, w') ->
     exists cs cfg pre o n post rest,
       getKubeClient k kubeconfig = Ok (cs, cfg) /\
       notifications k cs (Pod_Namespace pod)
       = pre ++ Updated o n :: post ++ rest /\
       log w' = log w ++ ListWatch cs "pods" (Pod_Namespace pod)
                  :: map Notify (pre ++ Updated o n :: post) /\
       noRunningUpdate pod pre /\
       Pod_Name n = Pod_Name pod /\ Phase (Status n) = PodRunning) /\
  (forall cs cfg pre o n post,
     getKubeClient k kubeconfig = Ok (cs, cfg) ->
     notifications k cs (Pod_Namespace pod) = pre ++ Updated o n :: post ->
     noRunningUpdate pod pre ->
     Pod_Name n = Pod_Name pod -> Phase (Status n) = PodRunning ->
     waitPod k kubeconfig pod w
     = (Returned tt,
        addLog (ListWatch cs "pods" (Pod_Namespace pod)
                  :: map Notify (pre ++ Updated o n
                                   :: firstn (lateNotifications k) post)) w)
     /\ waitPod_stop k kubeconfig pod w
        = (Returned closedStop,
           addLog (ListWatch cs "pods" (Pod_Namespace pod)
                     :: map Notify (pre ++ Updated o n
                                      :: firstn (lateNotifications k) post)) w))
  /\
  (forall cs cfg,
     getKubeClient k kubeconfig = Ok (cs, cfg) ->
     noRunningUpdate pod (notifications k cs (Pod_Namespace pod)) ->
     fst (waitPod k kubeconfig pod w) = Blocked) /\
  (forall s w', waitPod_stop k kubeconfig pod w = (Returned s, w') ->
     closed (c s) = true /\ closes (c s) = 1).
Proof.
  split; [|split; [|split; [|split; [|split; [|split]]]]].
  - intros o n stop Hdiff. rewrite waitPod_UpdateFunc_eq.
    destruct (isRunningUpdate pod (Updated o n)) eqn:E; [|reflexivity].
    apply isRunningUpdate_true in E as (o' & n' & [= <- <-] & Hn & Hp).
    destruct Hdiff; contradiction.
  - intros o n stop stop' Hret Hopen Hclosed. rewrite waitPod_UpdateFunc_eq in Hret.
    destruct (isRunningUpdate pod (Updated o n)) eqn:E.
    + apply isRunningUpdate_true in E as (o' & n' & [= <- <-] & Hn & Hp). auto.
    + injection Hret as <-. congruence.
  - intros obj stop. split; reflexivity.
  - intros w' Hret. rewrite waitPod_eq in Hret.
    destruct (waitPod_cases k kubeconfig pod w)
      as [(err & _ & Hw)|[(cs & cfg & _ & _ & Hw)
                         |(cs & cfg & pre & e & post & Hc & Hev & Hno & He & Hw)]];
      rewrite Hw in Hret; try discriminate.
    injection Hret as <-.
    apply isRunningUpdate_true in He as (o & n & -> & Hn & Hp).
    exists cs, cfg, pre, o, n, (firstn (lateNotifications k) post),
      (skipn (lateNotifications k) post).
    rewrite firstn_skipn. repeat split; auto.
  - intros cs cfg pre o n post Hc Hev Hno Hn Hp.
    assert (He : isRunningUpdate pod (Updated o n) = true)
      by (apply isRunningUpdate_true; eauto).
    assert (Hs : waitPod_stop k kubeconfig pod w
        = (Returned closedStop,
           addLog (ListWatch cs "pods" (Pod_Namespace pod)
                     :: map Notify (pre ++ Updated o n
                                      :: firstn (lateNotifications k) post)) w)).
    { rewrite waitPod_stop_eq, Hc, Hev, processLoop_running, addLog_app
        by assumption. reflexivity. }
    split; [|exact Hs]. rewrite waitPod_eq, Hs. reflexivity.
  - intros cs cfg Hc Hno. rewrite waitPod_eq, waitPod_stop_eq, Hc.
    rewrite processLoop_blocked by exact Hno. reflexivity.
  - intros s w' Hret.
    destruct (waitPod_cases k kubeconfig pod w)
      as [(err & _ & Hw)|[(cs & cfg & _ & _ & Hw)
                         |(cs & cfg & pre & e & post & _ & _ & _ & _ & Hw)]];
      rewrite Hw in Hret; try discriminate.
    injection Hret as <- _. split; reflexivity.
Qed.

Lemma waitPod_until_running_witness :
  waitPod sampleCluster "/home/user/.kube/config" samplePod sampleWorld
  = (Returned tt,
     addLog [ ListWatch (clientset_ 0) "pods" "default";
              Notify (Added samplePod);
              Notify (Updated otherPod otherPod);
              Notify (Updated samplePod samplePod);
              Notify (Updated samplePod runningPod);
              Notify (Updated runningPod runningPod) ] sampleWorld).
Proof.
  apply (proj1 (proj2 (proj2 (proj2 (proj2
           (waitPod_until_running sampleCluster "/home/user/.kube/config"
              samplePod sampleWorld)))))
           (clientset_ 0) (restConfig 0)
           [Added samplePod; Updated otherPod otherPod;
            Updated samplePod samplePod]
           samplePod runningPod
           [Updated runningPod runningPod; Updated runningPod runningPod]).
  - reflexivity.
  - reflexivity.
  - intros e [<-|[<-|[<-|[]]]]; reflexivity.
  - reflexivity.
  - reflexivity.
Defined.

(** ** Attaching *)

Lemma startStream_eq (k : Cluster) method url config so (w : World) :
  startStream k method url config so w =
  match NewSPDYExecutor k config method url with
  | Err err => (Returned (Some err), addLog [SPDYExecutor config method url] w)
  | Ok ex =>
      (Returned (Stream k ex so),
       addLog [SPDYExecutor config method url; ExecStream ex so] w)
  end.
Proof.
  unfold startStream, bind. rewrite emit_addLog.
  destruct (NewSPDYExecutor k config method url) as [ex|err].
  - rewrite emit_addLog, addLog_app. reflexivity.
  - reflexivity.
Qed.

(** [attach], by cases on the client, on the pod's containers and on the
    executor. *)
Lemma attach_eq (k : Cluster) (kubeconfig : string) (pod : Pod)
  (stdin : io.Reader) (stdout stderr : io.Writer) (w : World) :
  attach k kubeconfig pod stdin stdout stderr w =
  match getKubeClient k kubeconfig with
  | Err err => (Exited ("cannot get clientset: " ++ err)%string, w)
  | Ok (cs, config) =>
      match Containers (Spec pod) with
      | [] => (Panicked (IndexOutOfRange 0 0), w)
      | ctr :: _ =>
          let opts := with_Container (Container_Name ctr) (attachOptions w) in
          let url := attachRequest cs pod opts in
          let so := getStreamOptions opts stdin stdout stderr in
          let w1 := {| log := log w; attachOptions := opts |} in
          match NewSPDYExecutor k config "POST" url with
          | Err err =>
              (Returned (executing (Some err)),
               addLog [SPDYExecutor config "POST" url] w1)
          | Ok ex =>
              (Returned (executing (Stream k ex so)),
               addLog [SPDYExecutor config "POST" url; ExecStream ex so] w1)
          end
      end
  end.
Proof.
  unfold attach.
  destruct (getKubeClient k kubeconfig) as [[cs config]|err]; [|reflexivity].
  unfold bind at 1. unfold lift, containerToAttachTo. cbn [String.length Nat.ltb Nat.leb].
  destruct (Containers (Spec pod)) as [|ctr rest]; [reflexivity|].
  cbn [target]. unfold bind at 1.
  unfold set_Container at 1. unfold bind at 1. unfold read_attachOptions at 1.
  cbn [attachOptions]. unfold bind at 1. rewrite startStream_eq.
  fold (with_Container (Container_Name ctr) (attachOptions w)).
  fold (attachRequest cs pod
          (with_Container (Container_Name ctr) (attachOptions w))).
  cbv zeta.
  destruct (NewSPDYExecutor k config "POST" _) as [ex|err].
  - destruct (Stream k ex _); reflexivity.
  - reflexivity.
Qed.

(** C4, as the code has it.  [attach] attaches to the first container of
    the pod.  Whatever it sends is an executor built for one attach request
    followed at most by the start of its stream, and that request carries,
    as does [attachOptions.Container] afterwards, the name of the first
    element of [pod.Spec.Containers], the container that
    [containerToAttachTo] selects for the empty name.  That selection never
    returns an error.  For a pod without containers it panics, and so does
    [attach], with the index out of range and nothing sent; more generally
    nothing is sent and [attach] does not return whenever the selection
    does not give a container.  With a client and a first container the
    request is built. *)
Theorem attach_first_container (k : Cluster) (kubeconfig : string) (pod : Pod)
  (stdin : io.Reader) (stdout stderr : io.Writer) (w : World) :
  let r := attach k kubeconfig pod stdin stdout stderr w in
  (exists new, log (snd r) = log w ++ new /\
     (new = [] \/
      exists cs config ctr rest opts,
        getKubeClient k kubeconfig = Ok (cs, config) /\
        Containers (Spec pod) = ctr :: rest /\
        containerToAttachTo "" pod = Returned (Ok (InContainers 0 ctr)) /\
        In ctr (Containers (Spec pod)) /\
        Container_ opts = Container_Name ctr /\
        attachOptions (snd r) = opts /\
        let url := attachRequest cs pod opts in
        let so := getStreamOptions opts stdin stdout stderr in
        (new = [SPDYExecutor config "POST" url] \/
         exists ex, new = [SPDYExecutor config "POST" url; ExecStream ex so])))
  /\
  (forall e, containerToAttachTo "" pod <> Returned (Err e)) /\
  (forall cs config,
     getKubeClient k kubeconfig = Ok (cs, config) ->
     Containers (Spec pod) = [] ->
     r = (Panicked (IndexOutOfRange 0 0), w)) /\
  ((forall ref, containerToAttachTo "" pod <> Returned (Ok ref)) ->
     snd r = w /\ forall e, fst r <> Returned e) /\
  (forall cs config ctr rest,
     getKubeClient k kubeconfig = Ok (cs, config) ->
     Containers (Spec pod) = ctr :: rest ->
     exists e new, fst r = Returned e /\ log (snd r) = log w ++
       SPDYExecutor config "POST"
         (attachRequest cs pod
            (with_Container (Container_Name ctr) (attachOptions w))) :: new).
Proof.
  intros r. subst r. rewrite attach_eq.
  assert (Hsel : forall ctr rest, Containers (Spec pod) = ctr :: rest ->
            containerToAttachTo "" pod = Returned (Ok (InContainers 0 ctr)))
    by (intros ctr rest E; rewrite containerToAttachTo_empty, E; reflexivity).
  assert (Hnoerr : forall e, containerToAttachTo "" pod <> Returned (Err e))
    by (intros e; rewrite containerToAttachTo_empty;
        destruct (Containers (Spec pod)); discriminate).
  split; [|split; [exact Hnoerr|split; [|split]]].
  - destruct (getKubeClient k kubeconfig) as [[cs config]|err].
    + destruct (Containers (Spec pod)) as [|ctr rest] eqn:Hc.
      * exists []. rewrite app_nil_r. auto.
      * cbv zeta.
        destruct (NewSPDYExecutor k config "POST" _) as [ex|err] eqn:Hex.
        -- eexists. split; [reflexivity|]. right.
           exists cs, config, ctr, rest. eexists.
           repeat split; try reflexivity.
           ++ apply (Hsel ctr rest). reflexivity.
           ++ left. reflexivity.
           ++ right. exists ex. reflexivity.
        -- eexists. split; [reflexivity|]. right.
           exists cs, config, ctr, rest. eexists.
           repeat split; try reflexivity.
           ++ apply (Hsel ctr rest). reflexivity.
           ++ left. reflexivity.
           ++ left. reflexivity.
    + exists []. rewrite app_nil_r. auto.
  - intros cs config -> ->. reflexivity.
  - intros Hfail.
    destruct (Containers (Spec pod)) as [|ctr rest] eqn:Hc.
    + destruct (getKubeClient k kubeconfig) as [[cs config]|err];
        split; try reflexivity; discriminate.
    + exfalso. apply (Hfail (InContainers 0 ctr)). apply (Hsel ctr rest).
      reflexivity.
  - intros cs config ctr rest -> ->. cbv zeta.
    destruct (NewSPDYExecutor k config "POST" _) as [ex|err];
      eexists; eexists; split; reflexivity.
Qed.

Lemma attach_first_container_witness :
  attach sampleCluster "/home/user/.kube/config" emptyPod
    (Some 0) (Some 1) (Some 2) sampleWorld
  = (Panicked (IndexOutOfRange 0 0), sampleWorld) /\
  exists e new,
    fst (attach sampleCluster "/home/user/.kube/config" samplePod
           (Some 0) (Some 1) (Some 2) sampleWorld) = Returned e /\
    log (snd (attach sampleCluster "/home/user/.kube/config" samplePod
                (Some 0) (Some 1) (Some 2) sampleWorld))
    = log sampleWorld ++
      SPDYExecutor (restConfig 0) "POST"
        (attachRequest (clientset_ 0) samplePod
           (with_Container "app" sampleOptions)) :: new.
Proof.
  split.
  - apply (proj1 (proj2 (proj2
             (attach_first_container sampleCluster "/home/user/.kube/config"
                emptyPod (Some 0) (Some 1) (Some 2) sampleWorld)))
             (clientset_ 0) (restConfig 0)); reflexivity.
  - apply (proj2 (proj2 (proj2 (proj2
             (attach_first_container sampleCluster "/home/user/.kube/config"
                samplePod (Some 0) (Some 1) (Some 2) sampleWorld))))
             (clientset_ 0) (restConfig 0) (sampleContainer "app")
             [sampleContainer "sidecar"]); reflexivity.
Defined.

(** C4 as stated fails on a pod without containers: the selection gives no
    container, yet [attach] does not return an error; it panics. *)
Lemma attach_without_container_panics :
  (forall ref, containerToAttachTo "" emptyPod <> Returned (Ok ref)) /\
  fst (attach sampleCluster "/home/user/.kube/config" emptyPod
         (Some 0) (Some 1) (Some 2) sampleWorld)
  = Panicked (IndexOutOfRange 0 0) /\
  ~ (exists err,
       fst (attach sampleCluster "/home/user/.kube/config" emptyPod
              (Some 0) (Some 1) (Some 2) sampleWorld) = Returned (Some err)).
Proof.
  split; [|split].
  - intros ref. discriminate.
  - reflexivity.
  - intros [err H]. discriminate.
Qed.

Lemma with_Container_twice (a b : string) (o : PodAttachOptions) :
  with_Container a (with_Container b o) = with_Container a o.
Proof. reflexivity. Qed.

(** C8. [attach] does not look at the container name that the caller put in
    [attachOptions.Container]: its outcome and everything it sends are the
    same whatever that name is.  It writes to the caller's
    [PodAttachOptions] in place: when a client is obtained and the pod has
    a first container, and only then, [attach] returns, and the options are
    then the caller's with [Container] replaced by the name of that first
    container, which is also what the request carries.  Every other field
    is left as it was, in every case. *)
Theorem attach_overwrites_Container (k : Cluster) (kubeconfig : string)
  (pod : Pod) (stdin : io.Reader) (stdout stderr : io.Writer) (w : World) :
  let r := attach k kubeconfig pod stdin stdout stderr w in
  let o := attachOptions w in
  let o' := attachOptions (snd r) in
  (Kind o' = Kind o /\ APIVersion o' = APIVersion o /\ Stdin o' = Stdin o /\
   Stdout o' = Stdout o /\ Stderr o' = Stderr o /\ TTY o' = TTY o) /\
  (forall given,
     let r2 := attach k kubeconfig pod stdin stdout stderr
                 {| log := log w; attachOptions := with_Container given o |} in
     fst r2 = fst r /\ log (snd r2) = log (snd r) /\
     (forall e, fst r = Returned e -> attachOptions (snd r2) = o')) /\
  (forall cs config ctr rest,
     getKubeClient k kubeconfig = Ok (cs, config) ->
     Containers (Spec pod) = ctr :: rest ->
     o' = with_Container (Container_Name ctr) o /\
     (exists e, fst r = Returned e) /\
     exists new,
       log (snd r) = log w ++
         SPDYExecutor config "POST" (attachRequest cs pod o') :: new) /\
  (forall e, fst r = Returned e ->
     exists cs config ctr rest,
       getKubeClient k kubeconfig = Ok (cs, config) /\
       Containers (Spec pod) = ctr :: rest /\
       o' = with_Container (Container_Name ctr) o) /\
  ((forall e, fst r <> Returned e) -> o' = o).
Proof.
  intros r o o'. subst r o o'.
  split; [|split; [|split; [|split]]].
  - rewrite attach_eq.
    destruct (getKubeClient k kubeconfig) as [[cs config]|err];
      [destruct (Containers (Spec pod)) as [|ctr rest];
       [|cbv zeta; destruct (NewSPDYExecutor k config "POST" _)]|];
      cbn; auto 10.
  - intros given. cbv zeta. rewrite !attach_eq.
    destruct (getKubeClient k kubeconfig) as [[cs config]|err].
    + destruct (Containers (Spec pod)) as [|ctr rest].
      * cbn. repeat split. discriminate.
      * cbv zeta. cbn [attachOptions]. rewrite with_Container_twice.
        destruct (NewSPDYExecutor k config "POST" _) as [ex|err];
          cbn; auto.
    + cbn. repeat split. discriminate.
  - intros cs config ctr rest Hk Hc. rewrite attach_eq, Hk, Hc. cbv zeta.
    destruct (NewSPDYExecutor k config "POST" _) as [ex|err];
      cbn; repeat split; eauto.
  - intros e. rewrite attach_eq.
    destruct (getKubeClient k kubeconfig) as [[cs config]|err];
      [|discriminate].
    destruct (Containers (Spec pod)) as [|ctr rest]; [discriminate|].
    intros _. exists cs, config, ctr, rest. cbv zeta.
    destruct (NewSPDYExecutor k config "POST" _) as [ex|err]; cbn; auto.
  - rewrite attach_eq.
    destruct (getKubeClient k kubeconfig) as [[cs config]|err];
      [|reflexivity].
    destruct (Containers (Spec pod)) as [|ctr rest]; [reflexivity|].
    cbv zeta. intros Hnot. exfalso.
    destruct (NewSPDYExecutor k config "POST" _) as [ex|err];
      eapply Hnot; reflexivity.
Qed.

Lemma attach_overwrites_Container_witness :
  attachOptions
    (snd (attach sampleCluster "/home/user/.kube/config" samplePod
            (Some 0) (Some 1) (Some 2) sampleWorld))
  = with_Container "app" sampleOptions.
Proof.
  apply (proj1 (proj2 (proj2
           (attach_overwrites_Container sampleCluster
              "/home/user/.kube/config" samplePod (Some 0) (Some 1) (Some 2)
              sampleWorld)))
           (clientset_ 0) (restConfig 0) (sampleContainer "app")
           [sampleContainer "sidecar"]); reflexivity.
Defined.

(** ** Creating the pod *)

Lemma fold_left_append_map {A B} (f : A -> B) (l : list A) : forall acc,
  fold_left (fun env s => env ++ [f s]) l acc = acc ++ map f l.
Proof.
  induction l as [|x l IH]; intros acc; simpl.
  - rewrite app_nil_r. reflexivity.
  - rewrite IH, <- app_assoc. reflexivity.
Qed.

Lemma secretEnvVar_secretBacked (ss : list Secret) :
  Forall2 secretBacked ss (map secretEnvVar ss).
Proof.
  induction ss as [|s ss IH]; simpl; constructor; [|exact IH].
  split; [reflexivity|]. eexists. eexists. repeat split.
Qed.

Lemma createPod_eq (k : Cluster) (cfg : Config) (command args : list string)
  (w : World) :
  createPod k cfg command args w =
  match getKubeClient k (Kubeconfig cfg) with
  | Err err => (Exited ("cannot get clientset: " ++ err)%string, w)
  | Ok (cs, _) =>
      let pod := submittedPod cfg command args in
      (Returned (Create k cs (Config_Namespace cfg) pod),
       addLog [PodsCreate cs (Config_Namespace cfg) pod] w)
  end.
Proof.
  unfold createPod.
  destruct (getKubeClient k (Kubeconfig cfg)) as [[cs config]|err];
    [|reflexivity].
  rewrite fold_left_append_map. reflexivity.
Qed.

Lemma submittedPod_fixedSpec (cfg : Config) (command args : list string) :
  fixedSpec cfg (submittedPod cfg command args).
Proof.
  unfold fixedSpec, submittedPod. cbn [Spec Containers].
  eexists. split; [reflexivity|]. cbn.
  repeat split.
  - eexists. split; reflexivity.
  - apply secretEnvVar_secretBacked.
Qed.

(** C9. Every pod that [createPod] submits has the same fixed shape: one
    container, named [cfg.Name], with image [cfg.Image], [TTY] false,
    [Stdin] true, a security context whose [Privileged] points to false and
    pull policy [Always]; restart policy [OnFailure]; and an [Env] with one
    secret-backed variable per entry of [cfg.Secrets], in the same order,
    the variable named [EnvVarName] referring to the key [SecretKey] of the
    secret [SecretName].  [createPod] submits at most one pod, to
    [cfg.Namespace] and under the name [cfg.Name], and it submits one
    whenever a client is obtained. *)
Theorem createPod_fixed_spec (k : Cluster) (cfg : Config)
  (command args : list string) (w : World) :
  let r := createPod k cfg command args w in
  exists new, log (snd r) = log w ++ new /\
    (forall cs ns p, In (PodsCreate cs ns p) new ->
       fixedSpec cfg p /\ ns = Config_Namespace cfg /\
       Pod_Name p = Config_Name cfg /\
       (exists ctr, Containers (Spec p) = [ctr] /\
          Env ctr = map secretEnvVar (Secrets cfg) /\
          Command ctr = command /\ Args ctr = args)) /\
    (new = [] \/ exists cs p, new = [PodsCreate cs (Config_Namespace cfg) p]) /\
    (forall cs config,
       getKubeClient k (Kubeconfig cfg) = Ok (cs, config) ->
       exists p, new = [PodsCreate cs (Config_Namespace cfg) p] /\
                 fst r = Returned (Create k cs (Config_Namespace cfg) p)).
Proof.
  intros r. subst r. rewrite createPod_eq.
  destruct (getKubeClient k (Kubeconfig cfg)) as [[cs config]|err].
  - cbv zeta. eexists. split; [reflexivity|]. split; [|split].
    + intros cs' ns p [[= <- <- <-]|[]].
      split; [apply submittedPod_fixedSpec|].
      split; [reflexivity|]. split; [reflexivity|].
      eexists. split; [reflexivity|]. cbn. auto.
    + right. eauto.
    + intros cs' config' [= <- <-]. eexists. split; reflexivity.
  - exists []. cbn. rewrite app_nil_r. split; [reflexivity|].
    split; [intros cs ns p []|]. split; [auto|discriminate].
Qed.

Lemma createPod_fixed_spec_witness :
  exists p,
    createPod sampleCluster sampleConfig ["sh"] ["-c"; "env"] sampleWorld
    = (Returned (Ok (inNamespace "default" p)),
       addLog [PodsCreate (clientset_ 0) "default" p] sampleWorld) /\
    fixedSpec sampleConfig p.
Proof.
  destruct (createPod_fixed_spec sampleCluster sampleConfig ["sh"]
              ["-c"; "env"] sampleWorld) as (new & Hlog & Hin & _ & Hone).
  destruct (Hone (clientset_ 0) (restConfig 0) eq_refl) as (p & -> & Hr).
  exists p. split.
  - destruct (createPod sampleCluster sampleConfig ["sh"] ["-c"; "env"]
                sampleWorld) as [o [l a]] eqn:E.
    cbn in Hlog, Hr. subst o l.
    assert (Ha : a = sampleOptions)
      by (apply (f_equal (fun x => attachOptions (snd x))) in E;
          cbn in E; congruence).
    subst a. reflexivity.
  - apply (Hin (clientset_ 0) "default" p). left. reflexivity.
Defined.

(** ** The sequence of calls *)

(** C6. The calls go out in order: the creation of the pod, then the list
    and watch of the pods with the notifications it delivers, then the
    executor of the attach request and its stream; and nothing else is
    sent.  The watch starts only after the creation has succeeded, on the
    pod that the creation returned; the attach request is built only after
    the watch has delivered an update with that pod running, and is for
    that pod.  When every step succeeds all three groups are there. *)
Theorem createWaitAttach_in_order (k : Cluster) (cfg : Config)
  (command args : list string) (stdin : io.Reader) (stdout stderr : io.Writer)
  (w : World) :
  let r := createWaitAttach k cfg command args stdin stdout stderr w in
  exists created watched attached,
    log (snd r) = log w ++ created ++ watched ++ attached /\
    (created = [] \/
     exists cs, created = [PodsCreate cs (Config_Namespace cfg)
                             (submittedPod cfg command args)]) /\
    (watched = [] \/
     exists cs pod evs,
       created = [PodsCreate cs (Config_Namespace cfg)
                    (submittedPod cfg command args)] /\
       Create k cs (Config_Namespace cfg) (submittedPod cfg command args)
       = Ok pod /\
       watched = ListWatch cs "pods" (Pod_Namespace pod) :: map Notify evs /\
       (attached = [] \/
        exists config opts o n,
          In (Updated o n) evs /\ Pod_Name n = Pod_Name pod /\
          Phase (Status n) = PodRunning /\
          (attached = [SPDYExecutor config "POST" (attachRequest cs pod opts)]
           \/ exists ex,
                attached =
                  [SPDYExecutor config "POST" (attachRequest cs pod opts);
                   ExecStream ex
                     (getStreamOptions opts stdin stdout stderr)]))) /\
    (watched = [] -> attached = []) /\
    (forall cs config pod ctr rest pre o n post ex,
       getKubeClient k (Kubeconfig cfg) = Ok (cs, config) ->
       Create k cs (Config_Namespace cfg) (submittedPod cfg command args)
       = Ok pod ->
       notifications k cs (Pod_Namespace pod) = pre ++ Updated o n :: post ->
       noRunningUpdate pod pre ->
       Pod_Name n = Pod_Name pod -> Phase (Status n) = PodRunning ->
       Containers (Spec pod) = ctr :: rest ->
       let opts := with_Container (Container_Name ctr) (attachOptions w) in
       NewSPDYExecutor k config "POST" (attachRequest cs pod opts) = Ok ex ->
       created = [PodsCreate cs (Config_Namespace cfg)
                    (submittedPod cfg command args)] /\
       watched = ListWatch cs "pods" (Pod_Namespace pod)
                   :: map Notify (pre ++ Updated o n
                                    :: firstn (lateNotifications k) post) /\
       attached = [SPDYExecutor config "POST" (attachRequest cs pod opts);
                   ExecStream ex (getStreamOptions opts stdin stdout stderr)]
       /\
       fst r = Returned
                 (executing
                    (Stream k ex (getStreamOptions opts stdin stdout stderr)))).
Proof.
  intros r.
  assert (HR : r = createWaitAttach k cfg command args stdin stdout stderr w)
    by reflexivity.
  clearbody r. unfold createWaitAttach in HR. unfold bind at 1 in HR.
  rewrite createPod_eq in HR.
  destruct (getKubeClient k (Kubeconfig cfg)) as [[cs config]|err] eqn:Hk.
  2:{ subst r. exists [], [], []. cbn. rewrite app_nil_r.
      repeat split; auto; discriminate. }
  cbv zeta in HR.
  set (p := submittedPod cfg command args) in *.
  set (ns := Config_Namespace cfg) in *.
  destruct (Create k cs ns p) as [pod|err] eqn:Hcreate.
  2:{ subst r. exists [PodsCreate cs ns p], [], []. cbn.
      split; [reflexivity|]. split; [right; eauto|]. split; [auto|].
      split; [auto|].
      intros cs' config' pod' ctr rest pre o n post ex [= <- <-].
      fold p ns. rewrite Hcreate. discriminate. }
  unfold bind at 1 in HR. rewrite waitPod_eq in HR.
  destruct (waitPod_cases k (Kubeconfig cfg) pod (addLog [PodsCreate cs ns p] w))
    as [(err & He & _)
       |[(cs' & cfg' & Hk' & Hno & Hw)
        |(cs' & cfg' & pre & e & post & Hk' & Hev & Hno & He & Hw)]].
  - congruence.
  - rewrite Hk in Hk'. injection Hk' as <- <-. rewrite Hw in HR. subst r.
    exists [PodsCreate cs ns p],
      (ListWatch cs "pods" (Pod_Namespace pod)
         :: map Notify (notifications k cs (Pod_Namespace pod))), [].
    split; [cbn; rewrite app_nil_r, <- app_assoc; reflexivity|].
    split; [right; eauto|].
    split; [right; exists cs, pod; eexists; repeat split; auto|].
    split; [auto|].
    intros cs' config' pod' ctr rest pre o n post ex [= <- <-].
    rewrite Hcreate. intros [= <-] Hev Hnopre Hn Hp.
    exfalso.
    assert (Hrun : isRunningUpdate pod (Updated o n) = true)
      by (apply isRunningUpdate_true; eauto).
    rewrite (Hno (Updated o n)) in Hrun; [discriminate|].
    rewrite Hev. apply in_or_app. right. left. reflexivity.
  - rewrite Hk in Hk'. injection Hk' as <- <-. rewrite Hw in HR.
    set (seen := pre ++ e :: firstn (lateNotifications k) post) in *.
    assert (Hseen : exists o n, In (Updated o n) seen /\
                      Pod_Name n = Pod_Name pod /\
                      Phase (Status n) = PodRunning).
    { pose proof He as He0.
      apply isRunningUpdate_true in He0 as (o & n & Ee & Hn & Hp).
      exists o, n. split; [|auto]. rewrite <- Ee.
      apply in_or_app. right. left. reflexivity. }
    destruct Hseen as (o & n & Hin & Hn & Hp).
    rewrite attach_eq, Hk in HR. rewrite addLog_app in HR.
    cbn [attachOptions addLog] in HR.
    destruct (Containers (Spec pod)) as [|ctr rest] eqn:Hc.
    + subst r.
      exists [PodsCreate cs ns p],
        (ListWatch cs "pods" (Pod_Namespace pod) :: map Notify seen), [].
      split; [cbn; rewrite app_nil_r; reflexivity|].
      split; [right; eauto|].
      split; [right; exists cs, pod, seen; repeat split; auto|].
      split; [auto|].
      intros cs' config' pod' ctr rest pre' o' n' post' ex [= <- <-].
      rewrite Hcreate. intros [= <-]. rewrite Hc. discriminate.
    + cbv zeta in HR.
      set (opts := with_Container (Container_Name ctr) (attachOptions w)) in *.
      destruct (NewSPDYExecutor k config "POST" (attachRequest cs pod opts))
        as [ex|err] eqn:Hex.
      * subst r.
        exists [PodsCreate cs ns p],
          (ListWatch cs "pods" (Pod_Namespace pod) :: map Notify seen),
          [SPDYExecutor config "POST" (attachRequest cs pod opts);
           ExecStream ex (getStreamOptions opts stdin stdout stderr)].
        split; [cbn; rewrite <- !app_assoc; reflexivity|].
        split; [right; eauto|].
        split.
        { right. exists cs, pod, seen. repeat split; auto.
          right. exists config, opts, o, n. repeat split; auto.
          right. exists ex. reflexivity. }
        split; [discriminate|].
        intros cs' config' pod' ctr' rest' pre' o' n' post' ex'
          [= <- <-]. rewrite Hcreate. intros [= <-].
        intros Hev' Hno' Hn' Hp'. rewrite Hc. intros [= <- <-].
        cbv zeta. fold opts. rewrite Hex. intros [= <-].
        assert (He' : isRunningUpdate pod (Updated o' n') = true)
          by (apply isRunningUpdate_true; eauto).
        destruct (first_running_unique pod _ _ _ _ _ _
                    Hno He Hno' He' (eq_trans (eq_sym Hev) Hev'))
          as (Epre & Ee & Epost).
        subst seen. rewrite Epre, Ee, Epost.
        repeat split; reflexivity.
      * subst r.
        exists [PodsCreate cs ns p],
          (ListWatch cs "pods" (Pod_Namespace pod) :: map Notify seen),
          [SPDYExecutor config "POST" (attachRequest cs pod opts)].
        split; [cbn; rewrite <- !app_assoc; reflexivity|].
        split; [right; eauto|].
        split.
        { right. exists cs, pod, seen. repeat split; auto.
          right. exists config, opts, o, n. repeat split; auto. }
        split; [discriminate|].
        intros cs' config' pod' ctr' rest' pre' o' n' post' ex'
          [= <- <-]. rewrite Hcreate. intros [= <-].
        intros _ _ _ _. rewrite Hc. intros [= <- <-].
        cbv zeta. fold opts. rewrite Hex. discriminate.
Qed.

Lemma createWaitAttach_in_order_witness :
  let sent := submittedPod sampleConfig ["sh"] [] in
  let pod := inNamespace "default" sent in
  let opts := with_Container "job" sampleOptions in
  log (snd (createWaitAttach sampleCluster sampleConfig ["sh"] []
              (Some 0) (Some 1) (Some 2) sampleWorld))
  = [ PodsCreate (clientset_ 0) "default" sent;
      ListWatch (clientset_ 0) "pods" "default";
      Notify (Added samplePod);
      Notify (Updated otherPod otherPod);
      Notify (Updated samplePod samplePod);
      Notify (Updated samplePod runningPod);
      Notify (Updated runningPod runningPod);
      SPDYExecutor (restConfig 0) "POST"
        (attachRequest (clientset_ 0) pod opts);
      ExecStream (executor 0)
        (getStreamOptions opts (Some 0) (Some 1) (Some 2)) ].
Proof.
  intros sent pod opts.
  destruct (createWaitAttach_in_order sampleCluster sampleConfig ["sh"] []
              (Some 0) (Some 1) (Some 2) sampleWorld)
    as (created & watched & attached & Hlog & _ & _ & _ & Hall).
  assert (Hno : noRunningUpdate pod
                  [Added samplePod; Updated otherPod otherPod;
                   Updated samplePod samplePod])
    by (intros e [<-|[<-|[<-|[]]]]; reflexivity).
  destruct (Hall (clientset_ 0) (restConfig 0) pod
              (hd (sampleContainer "") (Containers (Spec pod))) []
              [Added samplePod; Updated otherPod otherPod;
               Updated samplePod samplePod]
              samplePod runningPod
              [Updated runningPod runningPod; Updated runningPod runningPod]
              (executor 0)
              eq_refl eq_refl eq_refl Hno eq_refl eq_refl eq_refl eq_refl)
    as (Hc & Hw & Ha & _).
  rewrite Hlog, Hc, Hw, Ha. reflexivity.
Defined.

(** * Further properties of the code *)

(** ** No client *)

(** X1. [createPod], [waitPod] and [attach] do not return when
    [getKubeClient] fails: each logs [cannot get clientset: <error>] and
    exits the process, having sent nothing and written nothing.  The error
    of [getKubeClient] is that of the configuration, with the kubeconfig
    path in its message, or, the configuration being read, that of the
    client. *)
Theorem no_client_exits (k : Cluster) (cfg : Config)
  (command args : list string) (pod : Pod) (stdin : io.Reader)
  (stdout stderr : io.Writer) (w : World) (e : error)
  (Hclient : getKubeClient k (Kubeconfig cfg) = Err e) :
  let msg := ("cannot get clientset: " ++ e)%string in
  createPod k cfg command args w = (Exited msg, w) /\
  waitPod k (Kubeconfig cfg) pod w = (Exited msg, w) /\
  attach k (Kubeconfig cfg) pod stdin stdout stderr w = (Exited msg, w) /\
  ((exists err,
      BuildConfigFromFlags k "" (Kubeconfig cfg) = Err err /\
      e = ("could not get kubernetes config from kubeconfig '"
             ++ Kubeconfig cfg ++ "': " ++ err)%string) \/
   (exists config err,
      BuildConfigFromFlags k "" (Kubeconfig cfg) = Ok config /\
      NewForConfig k config = Err err /\
      e = ("could not get kubernetes client: " ++ err)%string)).
Proof.
  intros msg. subst msg.
  rewrite createPod_eq, waitPod_eq, waitPod_stop_eq, attach_eq, Hclient.
  repeat split.
  unfold getKubeClient in Hclient.
  destruct (BuildConfigFromFlags k "" (Kubeconfig cfg)) as [config|err].
  - destruct (NewForConfig k config) as [cs|err] eqn:Hn; [discriminate|].
    injection Hclient as <-. right. exists config, err. auto.
  - injection Hclient as <-. left. exists err. auto.
Qed.

Lemma no_client_exits_witness :
  attach brokenCluster "/home/user/.kube/config" samplePod
    (Some 0) (Some 1) (Some 2) sampleWorld
  = (Exited
       "cannot get clientset: could not get kubernetes config from kubeconfig '/home/user/.kube/config': no such file",
     sampleWorld).
Proof.
  apply (no_client_exits brokenCluster sampleConfig [] [] samplePod
           (Some 0) (Some 1) (Some 2) sampleWorld
           "could not get kubernetes config from kubeconfig '/home/user/.kube/config': no such file"
           eq_refl).
Defined.

(** ** The stop signal in any state *)

(** X2. Whatever the state of a [stopChan], a call of [closeOnce] that
    returns leaves the [Once] done, and a second call then returns the same
    state: [closeOnce] is idempotent.  A call on a done [Once] changes
    nothing; a call that runs [close] closes an open channel, once. *)
Theorem closeOnce_idempotent (s s' : stopChan)
  (Hret : closeOnce s = Returned s') :
  sync.done (Once s') = true /\
  closeOnce s' = Returned s' /\
  (sync.done (Once s) = true -> s' = s) /\
  (sync.done (Once s) = false ->
     closed (c s) = false /\ closed (c s') = true /\
     closes (c s') = S (closes (c s))).
Proof.
  destruct s as [[cl n] [d]]. unfold closeOnce, Do, close in Hret.
  cbn [c Once sync.done closed closes] in Hret.
  destruct d.
  - injection Hret as <-.
    split; [reflexivity|]. split; [reflexivity|].
    split; [reflexivity|discriminate].
  - destruct cl; [discriminate|]. injection Hret as <-.
    split; [reflexivity|]. split; [reflexivity|].
    split; [discriminate|]. intros _. repeat split.
Qed.

Lemma closeOnce_idempotent_witness :
  closeOnce closedStop = Returned closedStop.
Proof.
  apply (closeOnce_idempotent newStopChan closedStop eq_refl).
Defined.

(** X3. The stop signal is close-safe only through [closeOnce].  On a
    [stopChan] whose [Once] is not done and whose channel is open, closing
    the channel directly makes the next [closeOnce] panic with a close of a
    closed channel, and closing it directly after [closeOnce] panics too.
    In general [closeOnce] panics exactly when the [Once] is not done and
    the channel is already closed. *)
Theorem close_outside_closeOnce_panics (s : stopChan)
  (Hfresh : sync.done (Once s) = false) (Hopen : closed (c s) = false) :
  (exists ch, close (c s) = Returned ch /\
     closeOnce {| c := ch; Once := Once s |}
     = Panicked CloseOfClosedChannel) /\
  (exists s', closeOnce s = Returned s' /\
     close (c s') = Panicked CloseOfClosedChannel) /\
  (forall t p, closeOnce t = Panicked p <->
     p = CloseOfClosedChannel /\ sync.done (Once t) = false /\
     closed (c t) = true).
Proof.
  destruct s as [[cl n] [d]]. cbn in Hfresh, Hopen. subst d cl.
  split; [|split].
  - eexists. split; reflexivity.
  - eexists. split; reflexivity.
  - intros [[cl' n'] [d']] p. unfold closeOnce, Do, close.
    cbn [c Once sync.done closed closes].
    destruct d', cl'; split; try discriminate.
    + intros (_ & H & _). discriminate.
    + intros (_ & H & _). discriminate.
    + intros [= <-]. auto.
    + intros (-> & _). reflexivity.
    + intros (_ & _ & H). discriminate.
Qed.

Lemma close_outside_closeOnce_panics_witness :
  closeOnce {| c := {| closed := true; closes := 1 |};
               Once := {| sync.done := false |} |}
  = Panicked CloseOfClosedChannel.
Proof.
  destruct (close_outside_closeOnce_panics newStopChan eq_refl eq_refl)
    as [(ch & Hch & Hp) _].
  injection Hch as <-. exact Hp.
Defined.

(** ** More on the container lookup *)

(** X4. Asking for the pod's first container by its name gives what the
    empty name gives: a pointer to [pod.Spec.Containers[0]], also when that
    name is empty or is repeated further down or among the init
    containers. *)
Theorem containerToAttachTo_first_by_name (pod : Pod) (ctr : Container)
  (rest : list Container) (Hfirst : Containers (Spec pod) = ctr :: rest) :
  containerToAttachTo (Container_Name ctr) pod = containerToAttachTo "" pod /\
  containerToAttachTo (Container_Name ctr) pod
  = Returned (Ok (InContainers 0 ctr)).
Proof.
  assert (H : containerToAttachTo (Container_Name ctr) pod
              = Returned (Ok (InContainers 0 ctr))).
  { unfold containerToAttachTo. rewrite Hfirst. cbn [rangeByName].
    rewrite String.eqb_refl.
    destruct (0 <? String.length (Container_Name ctr))%nat; reflexivity. }
  split; [|exact H].
  rewrite H, containerToAttachTo_empty, Hfirst. reflexivity.
Qed.

Lemma containerToAttachTo_first_by_name_witness :
  containerToAttachTo "app" samplePod = containerToAttachTo "" samplePod.
Proof.
  apply (containerToAttachTo_first_by_name samplePod (sampleContainer "app")
           [sampleContainer "sidecar"] eq_refl).
Defined.

Lemma noneNamed_not_In (name : string) (cs : list Container) :
  noneNamed name cs <-> ~ In name (map Container_Name cs).
Proof.
  unfold noneNamed. rewrite in_map_iff. split.
  - intros H (d & Hd & Hin). exact (H d Hin Hd).
  - intros H d Hin Hd. apply H. exists d. auto.
Qed.

(** X5. For a non-empty name the lookup never panics, and it finds a
    container exactly when the name is that of a container or of an init
    container of the pod; otherwise it returns an error. *)
Theorem containerToAttachTo_found_iff (container : string) (pod : Pod)
  (Hname : container <> "") :
  let names := map Container_Name
                 (Containers (Spec pod) ++ InitContainers (Spec pod)) in
  let r := containerToAttachTo container pod in
  ((exists ref, r = Returned (Ok ref)) <-> In container names) /\
  ((exists e, r = Returned (Err e)) <-> ~ In container names) /\
  (forall p, r <> Panicked p).
Proof.
  intros names r. subst names r. unfold containerToAttachTo.
  rewrite (nonempty_length _ Hname), map_app.
  destruct (rangeByName container (Containers (Spec pod)) 0)
    as [[i ctr]|] eqn:E1.
  - apply rangeByName_found in E1 as [_ (Hn & Hc & _)].
    assert (Hin : In container
                    (map Container_Name (Containers (Spec pod)) ++
                     map Container_Name (InitContainers (Spec pod)))).
    { apply in_or_app. left. apply in_map_iff. exists ctr. split; auto.
      eapply nth_error_In. exact Hn. }
    split; [|split].
    + split; [auto|]. intros _. eexists. reflexivity.
    + split; [intros [e He]; discriminate|]. intros H. contradiction.
    + discriminate.
  - apply rangeByName_none, noneNamed_not_In in E1.
    destruct (rangeByName container (InitContainers (Spec pod)) 0)
      as [[i ctr]|] eqn:E2.
    + apply rangeByName_found in E2 as [_ (Hn & Hc & _)].
      assert (Hin : In container
                      (map Container_Name (Containers (Spec pod)) ++
                       map Container_Name (InitContainers (Spec pod)))).
      { apply in_or_app. right. apply in_map_iff. exists ctr. split; auto.
        eapply nth_error_In. exact Hn. }
      split; [|split].
      * split; [auto|]. intros _. eexists. reflexivity.
      * split; [intros [e He]; discriminate|]. intros H. contradiction.
      * discriminate.
    + apply rangeByName_none, noneNamed_not_In in E2.
      assert (Hout : ~ In container
                       (map Container_Name (Containers (Spec pod)) ++
                        map Container_Name (InitContainers (Spec pod)))).
      { intros H. apply in_app_or in H as [H|H]; contradiction. }
      split; [|split].
      * split; [intros [ref Href]; discriminate|]. intros H. contradiction.
      * split; [auto|]. intros _. eexists. reflexivity.
      * discriminate.
Qed.

Lemma containerToAttachTo_found_iff_witness :
  (exists ref, containerToAttachTo "setup" samplePod = Returned (Ok ref)) /\
  (exists e, containerToAttachTo "db" samplePod = Returned (Err e)).
Proof.
  assert (Hne : forall a s, String a s <> "") by discriminate.
  split.
  - apply (proj1 (containerToAttachTo_found_iff "setup" samplePod (Hne _ _))).
    cbn. auto.
  - apply (proj1 (proj2
             (containerToAttachTo_found_iff "db" samplePod (Hne _ _)))).
    cbn. intros [H|[H|[H|[H|[]]]]]; discriminate.
Defined.

(** ** What [waitPod] reads of the pod *)

Lemma isRunningUpdate_same_name (pod pod' : Pod) (e : Event) :
  Pod_Name pod = Pod_Name pod' ->
  isRunningUpdate pod e = isRunningUpdate pod' e.
Proof. intros H. destruct e; simpl; rewrite ?H; reflexivity. Qed.

Lemma processLoop_same_name (pod pod' : Pod) :
  Pod_Name pod = Pod_Name pod' ->
  forall evs late stop w,
    processLoop (waitPod_handlers pod) late evs stop w
    = processLoop (waitPod_handlers pod') late evs stop w.
Proof.
  intros Hn. induction evs as [|e evs IH]; intros late stop w;
    [reflexivity|].
  rewrite !processLoop_cons, !dispatch_waitPod.
  rewrite (isRunningUpdate_same_name pod pod' e Hn).
  destruct (closed (c stop)); [destruct late as [|late]; [reflexivity|]|];
    destruct (isRunningUpdate pod' e); try apply IH;
    destruct (closeOnce stop); try reflexivity; apply IH.
Qed.

(** X6. [waitPod] reads only the name and the namespace of the pod it is
    given: two pods with the same name and namespace are waited for in the
    same way, whatever their spec and status.  In particular a pod that is
    passed in already running is still waited for. *)
Theorem waitPod_reads_name_and_namespace (k : Cluster) (kubeconfig : string)
  (pod pod' : Pod) (w : World)
  (Hname : Pod_Name pod = Pod_Name pod')
  (Hns : Pod_Namespace pod = Pod_Namespace pod') :
  waitPod k kubeconfig pod w = waitPod k kubeconfig pod' w /\
  waitPod_stop k kubeconfig pod w = waitPod_stop k kubeconfig pod' w.
Proof.
  assert (H : waitPod_stop k kubeconfig pod w
              = waitPod_stop k kubeconfig pod' w).
  { rewrite !waitPod_stop_eq, Hns.
    destruct (getKubeClient k kubeconfig) as [[cs config]|err];
      [|reflexivity].
    apply processLoop_same_name. exact Hname. }
  split; [|exact H]. rewrite !waitPod_eq, H. reflexivity.
Qed.

Lemma waitPod_reads_name_and_namespace_witness :
  waitPod sampleCluster "/home/user/.kube/config" runningPod sampleWorld
  = waitPod sampleCluster "/home/user/.kube/config" samplePod sampleWorld.
Proof.
  apply (waitPod_reads_name_and_namespace sampleCluster
           "/home/user/.kube/config" runningPod samplePod sampleWorld
           eq_refl eq_refl).
Defined.

(** ** What [attach] returns and streams *)

(** X7. The error that [attach] returns is always that of the executor or
    of the stream, behind the prefix [error executing: ]; the error for a
    container that cannot be selected is never returned.  [attach] returns
    nil exactly when a client is obtained, the pod has a first container,
    the executor is built and the stream ends without error.  When the
    executor cannot be built the stream is not started. *)
Theorem attach_result (k : Cluster) (kubeconfig : string) (pod : Pod)
  (stdin : io.Reader) (stdout stderr : io.Writer) (w : World) :
  let r := attach k kubeconfig pod stdin stdout stderr w in
  (forall msg, fst r = Returned (Some msg) ->
     exists cs config ctr rest e,
       getKubeClient k kubeconfig = Ok (cs, config) /\
       Containers (Spec pod) = ctr :: rest /\
       msg = ("error executing: " ++ e)%string /\
       let opts := with_Container (Container_Name ctr) (attachOptions w) in
       let url := attachRequest cs pod opts in
       ((NewSPDYExecutor k config "POST" url = Err e /\
         log (snd r) = log w ++ [SPDYExecutor config "POST" url]) \/
        exists ex,
          NewSPDYExecutor k config "POST" url = Ok ex /\
          Stream k ex (getStreamOptions opts stdin stdout stderr) = Some e))
  /\
  (fst r = Returned None <->
   exists cs config ctr rest ex,
     getKubeClient k kubeconfig = Ok (cs, config) /\
     Containers (Spec pod) = ctr :: rest /\
     let opts := with_Container (Container_Name ctr) (attachOptions w) in
     NewSPDYExecutor k config "POST" (attachRequest cs pod opts) = Ok ex /\
     Stream k ex (getStreamOptions opts stdin stdout stderr) = None).
Proof.
  intros r. subst r. rewrite attach_eq.
  destruct (getKubeClient k kubeconfig) as [[cs config]|err].
  2:{ split; [discriminate|]. split; [discriminate|].
      intros (cs & config & ctr & rest & ex & H & _). discriminate. }
  destruct (Containers (Spec pod)) as [|ctr rest].
  { split; [discriminate|]. split; [discriminate|].
    intros (cs' & config' & ctr & rest & ex & _ & H & _). discriminate. }
  cbv zeta.
  set (opts := with_Container (Container_Name ctr) (attachOptions w)).
  destruct (NewSPDYExecutor k config "POST" (attachRequest cs pod opts))
    as [ex|err] eqn:Hex.
  - destruct (Stream k ex (getStreamOptions opts stdin stdout stderr))
      as [e|] eqn:Hs; cbn [fst snd executing].
    + split.
      * intros msg [= <-]. exists cs, config, ctr, rest, e.
        cbv zeta. fold opts. rewrite Hex.
        split; [reflexivity|]. split; [reflexivity|].
        split; [reflexivity|]. right. exists ex. auto.
      * split; [discriminate|].
        intros (cs' & config' & ctr' & rest' & ex' & [= <- <-] & [= <- <-]
                & Hex' & Hs').
        fold opts in Hex', Hs'. rewrite Hex in Hex'. injection Hex' as <-.
        congruence.
    + split; [discriminate|]. split; [|reflexivity].
      intros _. exists cs, config, ctr, rest, ex. cbv zeta. fold opts.
      rewrite Hex. auto.
  - cbn [fst snd executing]. split.
    + intros msg [= <-]. exists cs, config, ctr, rest, err.
      cbv zeta. fold opts. rewrite Hex.
      split; [reflexivity|]. split; [reflexivity|].
      split; [reflexivity|]. left. auto.
    + split; [discriminate|].
      intros (cs' & config' & ctr' & rest' & ex' & [= <- <-] & [= <- <-]
              & Hex' & _).
      fold opts in Hex'. congruence.
Qed.

Lemma attach_result_witness :
  (exists e,
     fst (attach droppingCluster "/home/user/.kube/config" samplePod
            (Some 0) (Some 1) (Some 2) sampleWorld)
     = Returned (Some ("error executing: " ++ e)%string)) /\
  fst (attach sampleCluster "/home/user/.kube/config" samplePod
         (Some 0) (Some 1) (Some 2) sampleWorld)
  = Returned None.
Proof.
  split.
  - destruct (proj1 (attach_result droppingCluster "/home/user/.kube/config"
                       samplePod (Some 0) (Some 1) (Some 2) sampleWorld)
                "error executing: EOF" eq_refl)
      as (cs & config & ctr & rest & e & _ & _ & He & _).
    exists e. rewrite <- He. reflexivity.
  - apply (proj2 (attach_result sampleCluster "/home/user/.kube/config"
                    samplePod (Some 0) (Some 1) (Some 2) sampleWorld)).
    exists (clientset_ 0), (restConfig 0), (sampleContainer "app"),
      [sampleContainer "sidecar"], (executor 0).
    repeat split.
Defined.

(** X10. In the stream that [attach] starts, each of the three streams is
    the one passed to [attach] when the caller set the flag of the same name
    in the attach options, and nil otherwise: overwriting [Container] does
    not touch the flags.  The [TTY] flag of the attach options is not
    carried over: the stream is never a terminal and has no size queue. *)
Theorem attach_streams_follow_flags (k : Cluster) (kubeconfig : string)
  (pod : Pod) (stdin : io.Reader) (stdout stderr : io.Writer) (w : World)
  (new : list Effect) (ex : Executor) (so : remotecommand.StreamOptions)
  (Hlog : log (snd (attach k kubeconfig pod stdin stdout stderr w))
          = log w ++ new)
  (Hin : In (ExecStream ex so) new) :
  remotecommand.Stdin so
  = (if Stdin (attachOptions w) then stdin else None) /\
  remotecommand.Stdout so
  = (if Stdout (attachOptions w) then stdout else None) /\
  remotecommand.Stderr so
  = (if Stderr (attachOptions w) then stderr else None) /\
  remotecommand.Tty so = false /\
  remotecommand.TerminalSizeQueue so = None.
Proof.
  rewrite attach_eq in Hlog.
  assert (Hnil : forall l : list Effect, l = l ++ new -> new = [])
    by (intros l H; rewrite <- (app_nil_r l) in H at 1;
        apply app_inv_head in H; congruence).
  destruct (getKubeClient k kubeconfig) as [[cs config]|err].
  2:{ apply Hnil in Hlog. subst new. destruct Hin. }
  destruct (Containers (Spec pod)) as [|ctr rest].
  { apply Hnil in Hlog. subst new. destruct Hin. }
  cbv zeta in Hlog.
  destruct (NewSPDYExecutor k config "POST" _) as [ex'|err];
    cbn [snd log addLog] in Hlog; apply app_inv_head in Hlog; subst new.
  - destruct Hin as [H|[H|[]]]; [discriminate|]. injection H as <- <-.
    unfold getStreamOptions. cbn [with_Container Stdin Stdout Stderr].
    destruct (Stdin (attachOptions w)), (Stdout (attachOptions w)),
      (Stderr (attachOptions w)); repeat split.
  - destruct Hin as [H|[]]. discriminate.
Qed.

Lemma attach_streams_follow_flags_witness :
  let so := getStreamOptions (with_Container "app" sampleOptions)
              (Some 0) (Some 1) (Some 2) in
  remotecommand.Stdin so = Some 0 /\ remotecommand.Stderr so = None.
Proof.
  intros so.
  destruct (attach_streams_follow_flags sampleCluster
              "/home/user/.kube/config" samplePod (Some 0) (Some 1) (Some 2)
              sampleWorld
              [ SPDYExecutor (restConfig 0) "POST"
                  (attachRequest (clientset_ 0) samplePod
                     (with_Container "app" sampleOptions));
                ExecStream (executor 0) so ]
              (executor 0) so eq_refl (or_intror (or_introl eq_refl)))
    as (H0 & _ & H2 & _).
  split; assumption.
Defined.

(** ** From the created pod to the attach *)

Lemma app_self_nil {A} (l new : list A) : l = l ++ new -> new = [].
Proof.
  intros H. rewrite <- (app_nil_r l) in H at 1.
  apply app_inv_head in H. congruence.
Qed.

(** X8. A pod that keeps the containers of a pod submitted by [createPod]
    meets what [attach] needs: with a client, [attach] returns (it does not
    panic) and attaches to the container named [cfg.Name], which is also the
    one a lookup by that name selects. *)
Theorem attach_on_created_pod (k : Cluster) (cfg : Config)
  (command args : list string) (w : World) (new : list Effect)
  (cs0 : Clientset) (ns : string) (p : Pod)
  (kubeconfig : string) (pod : Pod) (stdin : io.Reader)
  (stdout stderr : io.Writer) (w2 : World) (cs : Clientset)
  (config : RestConfig)
  (Hlog : log (snd (createPod k cfg command args w)) = log w ++ new)
  (Hsent : In (PodsCreate cs0 ns p) new)
  (Hkept : Containers (Spec pod) = Containers (Spec p))
  (Hclient : getKubeClient k kubeconfig = Ok (cs, config)) :
  let r := attach k kubeconfig pod stdin stdout stderr w2 in
  (exists e, fst r = Returned e) /\
  Container_ (attachOptions (snd r)) = Config_Name cfg /\
  containerToAttachTo (Config_Name cfg) pod = containerToAttachTo "" pod /\
  exists ctr, containerToAttachTo "" pod = Returned (Ok (InContainers 0 ctr))
              /\ Container_Name ctr = Config_Name cfg.
Proof.
  intros r. subst r. rewrite createPod_eq in Hlog.
  destruct (getKubeClient k (Kubeconfig cfg)) as [[cs1 config1]|err].
  2:{ apply app_self_nil in Hlog. subst new. destruct Hsent. }
  cbv zeta in Hlog. cbn [snd log addLog] in Hlog.
  apply app_inv_head in Hlog. subst new.
  destruct Hsent as [[= <- <- <-]|[]].
  cbn [submittedPod Spec Containers] in Hkept.
  rewrite attach_eq, Hclient, Hkept. cbv zeta.
  split; [|split; [|split]].
  - destruct (NewSPDYExecutor k config "POST" _); eexists; reflexivity.
  - destruct (NewSPDYExecutor k config "POST" _); reflexivity.
  - unfold containerToAttachTo. rewrite Hkept. cbn [rangeByName Container_Name].
    rewrite String.eqb_refl.
    destruct (0 <? String.length (Config_Name cfg))%nat; reflexivity.
  - rewrite containerToAttachTo_empty, Hkept. eexists. split; reflexivity.
Qed.

Lemma attach_on_created_pod_witness :
  Container_
    (attachOptions
       (snd (attach sampleCluster "/home/user/.kube/config"
               (inNamespace "default" (submittedPod sampleConfig ["sh"] []))
               (Some 0) (Some 1) (Some 2) sampleWorld)))
  = "job".
Proof.
  apply (attach_on_created_pod sampleCluster sampleConfig ["sh"] []
           sampleWorld
           [PodsCreate (clientset_ 0) "default"
              (submittedPod sampleConfig ["sh"] [])]
           (clientset_ 0) "default" (submittedPod sampleConfig ["sh"] [])
           "/home/user/.kube/config"
           (inNamespace "default" (submittedPod sampleConfig ["sh"] []))
           (Some 0) (Some 1) (Some 2) sampleWorld
           (clientset_ 0) (restConfig 0)
           eq_refl (or_introl eq_refl) eq_refl eq_refl).
Defined.

Lemma secretEnvVar_inj (s s' : Secret) :
  secretEnvVar s = secretEnvVar s' -> s = s'.
Proof. destruct s, s'. cbn. intros [= -> -> ->]. reflexivity. Qed.

Lemma map_secretEnvVar_inj : forall ss ss' : list Secret,
  map secretEnvVar ss = map secretEnvVar ss' -> ss = ss'.
Proof.
  induction ss as [|s ss IH]; intros [|s' ss']; cbn [map];
    try discriminate; [reflexivity|].
  intros H.
  pose proof (f_equal (hd (secretEnvVar s)) H) as Hs.
  pose proof (f_equal (@tl EnvVar) H) as Hss.
  cbn [hd tl] in Hs, Hss.
  apply secretEnvVar_inj in Hs. apply IH in Hss. congruence.
Qed.

(** X9. The request that [createPod] sends keeps all of the configuration
    but the kubeconfig path: two calls that submit the same pod to the same
    namespace were given the same namespace, name, image and list of
    secrets (same entries, same order), the same command and the same
    arguments. *)
Theorem createPod_keeps_configuration (k k' : Cluster) (cfg cfg' : Config)
  (command command' args args' : list string) (w w' : World)
  (cs cs' : Clientset) (ns : string) (p : Pod)
  (Hlog : log (snd (createPod k cfg command args w))
          = log w ++ [PodsCreate cs ns p])
  (Hlog' : log (snd (createPod k' cfg' command' args' w'))
           = log w' ++ [PodsCreate cs' ns p]) :
  Config_Namespace cfg = Config_Namespace cfg' /\
  Config_Name cfg = Config_Name cfg' /\
  Config_Image cfg = Config_Image cfg' /\
  Secrets cfg = Secrets cfg' /\
  command = command' /\ args = args'.
Proof.
  rewrite createPod_eq in Hlog, Hlog'.
  destruct (getKubeClient k (Kubeconfig cfg)) as [[c1 g1]|err];
    [|apply app_self_nil in Hlog; discriminate].
  destruct (getKubeClient k' (Kubeconfig cfg')) as [[c2 g2]|err];
    [|apply app_self_nil in Hlog'; discriminate].
  cbv zeta in Hlog, Hlog'. cbn [snd log addLog] in Hlog, Hlog'.
  apply app_inv_head in Hlog, Hlog'.
  injection Hlog as _ Hns Hp. injection Hlog' as _ Hns' Hp'.
  subst ns p. unfold submittedPod in Hp'.
  injection Hp' as Hname Hname2 Himage Hcmd Hargs Henv.
  apply map_secretEnvVar_inj in Henv.
  repeat split; congruence.
Qed.

Lemma createPod_keeps_configuration_witness :
  Secrets sampleConfigElsewhere = Secrets sampleConfig /\
  Config_Name sampleConfigElsewhere = Config_Name sampleConfig.
Proof.
  destruct (createPod_keeps_configuration droppingCluster sampleCluster
              sampleConfigElsewhere sampleConfig ["sh"] ["sh"] [] []
              sampleWorld sampleWorld
              (clientset_ 0) (clientset_ 0) "default"
              (submittedPod sampleConfig ["sh"] []) eq_refl eq_refl)
    as (_ & Hn & _ & Hs & _).
  split; assumption.
Defined.
